(** * flupy: a shallow embedding of the Fluent-Python exercises

    The repository holds three small Python modules and their tests:
    - [fluent_python/vector.py]: a 2D vector with overloaded operators,
    - [fluent_python/french_deck.py]: a 52-card deck with a sort key,
    - [tests/test_first_class_functions.py]: [factorial], [BingoCage], [tag].

    Python integers are modelled as [Z] (unbounded), Python [str] as
    [string] (byte strings; for UTF-8 text the bytewise lexicographic order
    is the code point order Python compares by) and, where lengths and
    positions matter, as the list of its code points, Python [float] as
    Rocq's binary64 floats, Python dictionaries as [gmap], Python
    exceptions as an error monad. *)

From Equations Require Import Equations.
From stdpp Require Import gmap strings list fin_maps sorting pretty.
From Stdlib Require Import ZArith Lia Floats.

Local Open Scope Z_scope.

(** ** Exceptions and the error monad *)

(** The built-in exception classes the modelled code can raise, each with the
    payload that tells instances apart. *)
Inductive exn : Type :=
  | IndexError
  | LookupError (msg : string)
  | ValueError
  | KeyError (key : string)
  | AttributeError.

(** A Python call either returns a value or raises. *)
Inductive result (A : Type) : Type :=
  | Ok (a : A)
  | Raise (e : exn).
Arguments Ok {A} a.
Arguments Raise {A} e.

(** Sequencing: an exception raised by the first computation propagates.
    The instances give [result] stdpp's [x ← m; k] notation. *)
#[global] Instance result_ret : MRet result := λ A a, Ok a.
#[global] Instance result_bind : MBind result := λ A B f m,
  match m with
  | Ok a => f a
  | Raise e => Raise e
  end.

(** [[f(x) for x in l]] for an [f] that may raise: the first failure, in
    iteration order, propagates. *)
Fixpoint map_result {A B} (f : A → result B) (l : list A) : result (list B) :=
  match l with
  | [] => Ok []
  | a :: l' =>
      b ← f a;
      bs ← map_result f l';
      Ok (b :: bs)
  end.

(** ** tests/test_first_class_functions.py: factorial *)

(** [return 1 if n < 2 else n * factorial(n - 1)].  The recursive call is on
    [n - 1], which is smaller only because [n >= 2] on that branch. *)
Equations? factorial (n : Z) : Z by wf (Z.to_nat n) lt :=
  factorial n with Z_lt_dec n 2 => {
    | left _ := 1;
    | right _ := n * factorial (n - 1) }.
Proof. lia. Qed.

(** The same function with the interpreter's call stack made explicit:
    [limit] is the number of nested calls that are still allowed, and
    running out of it is the interpreter's recursion error, rendered [None]. *)
Fixpoint factorial_within (limit : nat) (n : Z) : option Z :=
  match limit with
  | O => None
  | S limit' =>
      if Z_lt_dec n 2 then Some 1
      else r ← factorial_within limit' (n - 1); Some (n * r)
  end.

(** The mathematical factorial, as the product 1 * 2 * ... * n. *)
Definition product_to (n : nat) : Z :=
  foldr Z.mul 1 (Z.of_nat <$> seq 1 n).

(** ** fluent_python/vector.py *)

Module vector.

Record Vector : Type := new { x : Z; y : Z }.

(** Truth value of an [int]. *)
Definition int_bool (n : Z) : bool := negb (n =? 0).

(** [a or b] on integers: [a] when it is truthy, else [b]. *)
Definition int_or (a b : Z) : Z := if int_bool a then a else b.

(** [bool(self.x or self.y)] *)
Definition __bool__ (self : Vector) : bool := int_bool (int_or (x self) (y self)).

Definition __add__ (self other : Vector) : Vector :=
  let x := x self + x other in
  let y := y self + y other in
  new x y.

Definition __mul__ (self : Vector) (scalar : Z) : Vector :=
  new (x self * scalar) (y self * scalar).

(** *** Vectors as objects

    In Python a [Vector] is a mutable object reached through a reference.
    The store maps references to the objects' fields; the operators read
    their operands through the store and allocate the result. *)
Abbreviation ref := positive (only parsing).
Abbreviation store := (gmap positive Vector) (only parsing).

Definition alloc (v : Vector) (σ : store) : ref * store :=
  let r := fresh (dom σ) in (r, <[r := v]> σ).

(** [a + b] for references [a] and [b]; [None] only for a dangling
    reference, which Python cannot produce. *)
Definition add_obj (a b : ref) (σ : store) : option (ref * store) :=
  self ← σ !! a;
  other ← σ !! b;
  Some (alloc (__add__ self other) σ).

Definition mul_obj (a : ref) (scalar : Z) (σ : store) : option (ref * store) :=
  self ← σ !! a;
  Some (alloc (__mul__ self scalar) σ).

(** A program that only adds and scales vectors, as the sequence of its
    operator calls; a call on a dangling reference is skipped. *)
Inductive op : Type :=
  | Add (a b : ref)
  | Mul (a : ref) (scalar : Z).

Definition step (o : op) (σ : store) : option (ref * store) :=
  match o with
  | Add a b => add_obj a b σ
  | Mul a scalar => mul_obj a scalar σ
  end.

Fixpoint run (ops : list op) (σ : store) : store :=
  match ops with
  | [] => σ
  | o :: ops' => run ops' (from_option snd σ (step o σ))
  end.

(** [s] does not contain the character [c]. *)
Fixpoint lacks (c : Ascii.ascii) (s : string) : Prop :=
  match s with
  | EmptyString => True
  | String a s' => a ≠ c ∧ lacks c s'
  end.

(** [Vector(x, y)]; an omitted argument defaults to 0. *)
Definition __init__ (x y : option Z) : Vector := new (default 0 x) (default 0 y).

(** ['Vector(%r, %r)' % (self.x, self.y)]: [%r] of an [int] is its decimal
    notation. *)
Definition __repr__ (self : Vector) : string :=
  "Vector(" +:+ pretty (x self) +:+ ", " +:+ pretty (y self) +:+ ")".

(** *** Magnitude

    [abs(v)] is a [float]: an IEEE 754 binary64 value, as Rocq's primitive
    floats are. *)

(** What a failed conversion of an [int] to a [float] raises. *)
Inductive float_error : Type :=
  | OverflowError (msg : string).

(** [float(n)] for an integer: the binary64 value nearest to [n], ties to
    even, and [OverflowError] when that lies beyond the largest finite
    float. *)
Definition float_of_int (n : Z) : float_error + float :=
  let f := SF2Prim (SpecFloat.binary_normalize prec emax n 0 false) in
  if PrimFloat.is_infinity f
  then inl (OverflowError "int too large to convert to float")
  else inr f.

(** The exact value [m * 2 ^ e] of a finite float, as [(m, e)], without
    its sign. *)
Definition dyadic (f : spec_float) : option (Z * Z) :=
  match f with
  | S754_zero _ => Some (0, 0)
  | S754_finite _ m e => Some (Z.pos m, e)
  | _ => None
  end.

(** Modelled from the spec: [math.hypot] is a function of Python's library,
    not of this repository; it is taken as what its documentation gives,
    the Euclidean norm [sqrt(a*a + b*b)]: the binary64 value nearest to
    the square root of the exact sum of the squares (an infinite argument
    gives infinity). *)
Definition hypot (a b : float) : float :=
  match dyadic (Prim2SF a), dyadic (Prim2SF b) with
  | Some (ma, ea), Some (mb, eb) =>
      let e := Z.min ea eb in
      match ((ma * 2 ^ (ea - e)) ^ 2 + (mb * 2 ^ (eb - e)) ^ 2)%Z with
      | Z.pos p => SF2Prim (SFsqrt prec emax (S754_finite false p (2 * e)))
      | _ => 0%float
      end
  | _, _ =>
      if PrimFloat.is_infinity a || PrimFloat.is_infinity b
      then infinity else nan
  end.

(** [hypot(self.x, self.y)]: [hypot] converts its arguments to [float], the
    first one first. *)
Definition __abs__ (self : Vector) : float_error + float :=
  match float_of_int (x self) with
  | inl e => inl e
  | inr a =>
      match float_of_int (y self) with
      | inl e => inl e
      | inr b => inr (hypot a b)
      end
  end.

End vector.

(** ** Built-in functions and methods used by the modules *)

Module builtins.

(** [l[i]] for an integer [i]: negative indices count from the end, and an
    index outside [-len(l) .. len(l)-1] raises [IndexError]. *)
Definition getitem {A} (l : list A) (i : Z) : result A :=
  let j := if decide (i < 0) then i + Z.of_nat (length l) else i in
  if decide (0 ≤ j) then
    match l !! Z.to_nat j with
    | Some a => Ok a
    | None => Raise IndexError
    end
  else Raise IndexError.

(** [l.index(v)]: the position of the first element equal to [v], or
    [ValueError]. *)
Fixpoint index (l : list string) (v : string) : result Z :=
  match l with
  | [] => Raise ValueError
  | a :: l' => if decide (a = v) then Ok 0 else i ← index l' v; Ok (i + 1)
  end.

(** [d[k]] on a dictionary with string keys. *)
Definition dict_getitem {V} (d : gmap string V) (k : string) : result V :=
  match d !! k with
  | Some v => Ok v
  | None => Raise (KeyError k)
  end.

(** [l.pop()]: removes and returns the last item; [IndexError] when empty. *)
Definition pop {A} (l : list A) : result (A * list A) :=
  match last l with
  | Some a => Ok (a, take (length l - 1)%nat l)
  | None => Raise IndexError
  end.

(** The characters [str.split()] treats as separators in ASCII text. *)
Definition isspace (c : Ascii.ascii) : bool :=
  let n := Ascii.nat_of_ascii c in
  bool_decide (9 ≤ n ≤ 13 ∨ 28 ≤ n ≤ 32)%nat.

(** [s.split()]: the maximal runs of non-space characters. [word] is the run
    being read, if any. *)
Fixpoint split_go (word : option string) (s : string) : list string :=
  match s with
  | EmptyString => option_list word
  | String c s' =>
      if isspace c then option_list word ++ split_go None s'
      else split_go (Some (default "" word +:+ String c "")) s'
  end.
Definition split (s : string) : list string := split_go None s.

(** [list(s)]: the characters of [s] as one-character strings. *)
Fixpoint chars (s : string) : list string :=
  match s with
  | EmptyString => []
  | String c s' => String c "" :: chars s'
  end.

(** [range(a, b)] *)
Definition range (a b : Z) : list Z := seqZ a (b - a).

(** [str(n)] for an integer. *)
Definition str (n : Z) : string := pretty n.

(** [sep.join(l)] *)
Definition join (sep : string) (l : list string) : string :=
  match l with
  | [] => ""
  | a :: l' => foldl (λ acc s, acc +:+ sep +:+ s) a l'
  end.

(** *** sorted

    [sorted(iterable, key=f)] computes every key once, then sorts stably,
    comparing keys with [<] only.  The sort is written as an insertion sort:
    each item goes in front of the first one it does not exceed, so items
    with equal keys keep the order they came in, which is what fixes the
    result of the built-in's stable sort too. *)
Section sorted.
Context {A K : Type} (lt : K → K → bool).

Fixpoint insort (x : K * A) (l : list (K * A)) : list (K * A) :=
  match l with
  | [] => [x]
  | y :: l' => if lt y.1 x.1 then y :: insort x l' else x :: y :: l'
  end.

Definition sort_keyed (l : list (K * A)) : list (K * A) := foldr insort [] l.

(** [x] may stand before [y]: the key of [y] is not below the key of [x]. *)
Definition key_le (x y : K * A) : Prop := lt y.1 x.1 = false.

Definition sorted (key : A → result K) (l : list A) : result (list A) :=
  keyed ← map_result (λ a, k ← key a; Ok (k, a)) l;
  Ok ((sort_keyed keyed).*2).

End sorted.

(** [sorted(l)] without a key: the items are their own keys. *)
Definition sorted_plain {A} (lt : A → A → bool) (l : list A) : list A :=
  (sort_keyed lt ((λ a, (a, a)) <$> l)).*2.

(** [a < b] on strings. *)
Definition str_lt (a b : string) : bool :=
  match String.compare a b with Lt => true | _ => false end.

(** [a < b] on pairs of strings: lexicographic. *)
Definition tuple_lt (a b : string * string) : bool :=
  str_lt a.1 b.1 || (bool_decide (a.1 = b.1) && str_lt a.2 b.2).

End builtins.

(** ** fluent_python/french_deck.py *)

Module french_deck.
Import builtins.

Record Card : Type := mkCard { rank : string; suit : string }.

#[global] Instance Card_eq_dec : EqDecision Card.
Proof. solve_decision. Defined.

(** [Card] is a [NamedTuple]: its fields are read-only, and assigning to
    an attribute of an instance raises [AttributeError]; the instance is
    left as it was. *)
Definition Card_setattr (self : Card) (name value : string) : result unit * Card :=
  (Raise AttributeError, self).

(** The card after a sequence of attempted assignments [(name, value)]. *)
Fixpoint setattrs (self : Card) (writes : list (string * string)) : Card :=
  match writes with
  | [] => self
  | (name, value) :: writes' => setattrs (Card_setattr self name value).2 writes'
  end.

Definition ranks : list string := (str <$> range 2 11) ++ chars "JQKA".
Definition suits : list string := split "spades diamonds clubs hearts".
Definition suit_values : gmap string Z :=
  list_to_map [("spades", 3); ("hearts", 2); ("diamonds", 1); ("clubs", 0)].

Record FrenchDeck : Type := mkDeck { _cards : list Card }.

(** [[Card(rank, suit) for suit in self.suits for rank in self.ranks]] *)
Definition __init__ : FrenchDeck :=
  mkDeck (suit ← suits; rank ← ranks; [mkCard rank suit]).

Definition __len__ (self : FrenchDeck) : Z := Z.of_nat (length (_cards self)).

Definition __getitem__ (self : FrenchDeck) (position : Z) : result Card :=
  getitem (_cards self) position.

(** Iterating over an object that has [__getitem__] but no [__iter__]:
    positions 0, 1, 2, ... are read until one raises [IndexError].  [fuel]
    bounds the number of reads. *)
Fixpoint iter_from (self : FrenchDeck) (fuel : nat) (i : Z) : result (list Card) :=
  match fuel with
  | O => Ok []
  | S fuel' =>
      match __getitem__ self i with
      | Ok c => l ← iter_from self fuel' (i + 1); Ok (c :: l)
      | Raise IndexError => Ok []
      | Raise e => Raise e
      end
  end.
Definition iter (self : FrenchDeck) : result (list Card) :=
  iter_from self (S (length (_cards self))) 0.

Definition sorting (self : FrenchDeck) (card : Card) : result Z :=
  rank_value ← index ranks (rank card);
  suit_value ← dict_getitem suit_values (suit card);
  Ok (rank_value * Z.of_nat (size suit_values) + suit_value).

Definition sorted (self : FrenchDeck) : result (list Card) :=
  cards ← iter self;
  builtins.sorted Z.ltb (sorting self) cards.

End french_deck.

(** ** tests/test_first_class_functions.py: BingoCage *)

Module random.

(** The generator is an oracle: its [t]-th draw is [rng t], and
    [randbelow(n)] reduces the draw modulo [n]. *)
Definition swap {A} (i j : nat) (x : list A) : list A :=
  match x !! i, x !! j with
  | Some xi, Some xj => <[j := xi]> (<[i := xj]> x)
  | _, _ => x
  end.

(** [random.shuffle(x)]:
    [for i in reversed(range(1, len(x))): j = randbelow(i + 1); x[i], x[j] = x[j], x[i]].
    [t] counts the draws made so far. *)
Fixpoint shuffle_from {A} (rng : nat → nat) (t i : nat) (x : list A) : list A :=
  match i with
  | O => x
  | S i' => let j := (rng t `mod` (i + 1))%nat in shuffle_from rng (S t) i' (swap i j x)
  end.
Definition shuffle {A} (rng : nat → nat) (x : list A) : list A :=
  shuffle_from rng 0 (length x - 1) x.

End random.

Module BingoCage.

Record BingoCage : Type := mk { _items : list Z }.

(** [self._items = list(items); random.shuffle(self._items)] *)
Definition __init__ (rng : nat → nat) (items : list Z) : BingoCage :=
  mk (random.shuffle rng items).

(** [pick] returns its outcome together with the cage after the call. *)
Definition pick (self : BingoCage) : result Z * BingoCage :=
  match builtins.pop (_items self) with
  | Ok (a, rest) => (Ok a, mk rest)
  | Raise IndexError => (Raise (LookupError "pick from empty BingoCage"), self)
  | Raise e => (Raise e, self)
  end.

Definition __call__ (self : BingoCage) : result Z * BingoCage := pick self.

(** The cage after [n] calls of [pick], whatever they returned. *)
Fixpoint after_picks (n : nat) (self : BingoCage) : BingoCage :=
  match n with
  | O => self
  | S n' => after_picks n' (pick self).2
  end.

(** The outcomes of [n] successive calls of [pick]. *)
Fixpoint pick_many (n : nat) (self : BingoCage) : list (result Z) :=
  match n with
  | O => []
  | S n' => (pick self).1 :: pick_many n' (pick self).2
  end.

End BingoCage.

(** ** tests/test_first_class_functions.py: tag *)

(** The double-quote character, as a string. *)
Definition dquote : string := String (Ascii.ascii_of_nat 34) "".
(** ['\n'] *)
Definition newline : string := String (Ascii.ascii_of_nat 10) "".

(** [' %s="%s"' % (k, v)] *)
Definition format_attr (kv : string * string) : string :=
  " " +:+ kv.1 +:+ "=" +:+ dquote +:+ kv.2 +:+ dquote.

(** [tag(name, *content, cls=None, **attrs)]: [content] is the tuple of
    positional arguments after [name], [cls] is [None] unless given, and
    [attrs] holds the remaining keyword arguments.  Both members of each
    selecting tuple are pure, so only the selected one is computed here. *)
Definition tag (name : string) (content : list string) (cls : option string)
    (attrs : gmap string string) : string :=
  let attrs := match cls with Some c => <["class" := c]> attrs | None => attrs end in
  let attr_str :=
    if decide (attrs = ∅) then ""
    else builtins.join ""
           (format_attr <$> builtins.sorted_plain builtins.tuple_lt (map_to_list attrs)) in
  match content with
  | [] => "<" +:+ name +:+ attr_str +:+ " />"
  | _ =>
      builtins.join newline
        ((λ c, "<" +:+ name +:+ attr_str +:+ ">" +:+ c +:+ "</" +:+ name +:+ ">")
           <$> content)
  end.

(** Exceptions and outcomes can be compared. *)
#[global] Instance exn_eq_dec : EqDecision exn.
Proof. solve_decision. Defined.

#[global] Instance result_eq_dec {A} `{EqDecision A} : EqDecision (result A).
Proof. solve_decision. Defined.

(** ** tests/test_first_class_functions.py: fact, ugly_fact *)

(** [functools.reduce(f, l)] without an initial value: the items are
    combined from the left, and an empty [l] raises [TypeError]. *)
Inductive type_error : Type :=
  | TypeError (msg : string).

Definition reduce {A} (f : A → A → A) (l : list A) : type_error + A :=
  match l with
  | [] => inl (TypeError "reduce() of empty sequence with no initial value")
  | a :: l' => inr (foldl f a l')
  end.

(** [reduce(lambda a, b: a * b, range(1, n + 1))] *)
Definition ugly_fact (n : Z) : type_error + Z :=
  reduce (λ a b, a * b) (builtins.range 1 (n + 1)).

(** [reduce(mul, range(1, n + 1))] *)
Definition fact (n : Z) : type_error + Z :=
  reduce Z.mul (builtins.range 1 (n + 1)).

(** ** Unicode text

    A Python [str] is a sequence of Unicode code points: lengths, positions
    and slices count code points.  The string literals of this file are
    UTF-8 bytes, which [decode] reads. *)

Module unicode.

(** The code points that a UTF-8 byte string encodes; [cur] is the code
    point whose bytes are being read. *)
Fixpoint decode_go (cur : option Z) (s : string) : list Z :=
  match s with
  | EmptyString => option_list cur
  | String a s' =>
      let b := Z.of_nat (Ascii.nat_of_ascii a) in
      if decide (b < 128) then option_list cur ++ b :: decode_go None s'
      else if decide (b < 192) then
        decode_go (Some (default 0 cur * 64 + (b - 128))) s'
      else
        option_list cur
        ++ decode_go
             (Some (if decide (b < 224) then b - 192
                    else if decide (b < 240) then b - 224 else b - 240)) s'
  end.
Definition decode (s : string) : list Z := decode_go None s.

(** [c.isspace()] for a character: the white space of Unicode, as the
    interpreter tabulates it. *)
Definition isspace (c : Z) : bool :=
  bool_decide (9 ≤ c ≤ 13 ∨ 28 ≤ c ≤ 32 ∨ c = 133 ∨ c = 160 ∨ c = 5760
               ∨ 8192 ≤ c ≤ 8202 ∨ c = 8232 ∨ c = 8233 ∨ c = 8239
               ∨ c = 8287 ∨ c = 12288).

End unicode.

(** ** tests/test_first_class_functions.py: clip *)

Module text.

(** [' '] *)
Definition space : Z := 32.

(** A slice bound as Python reads it on a sequence of length [n]: a
    negative bound counts from the end, and the result is clamped to
    [0 .. n]. *)
Definition slice_bound (n : nat) (i : Z) : nat :=
  if decide (i < 0) then Z.to_nat (i + Z.of_nat n) else Z.to_nat i `min` n.

(** The highest position [j] with [lo <= j < hi] that holds [c], or
    [found] when there is none; [i] is the position of the head of [s]. *)
Fixpoint rfind_go (c : Z) (s : list Z) (i lo hi : nat) (found : Z) : Z :=
  match s with
  | [] => found
  | a :: s' =>
      rfind_go c s' (S i) lo hi
        (if decide ((lo ≤ i < hi)%nat ∧ a = c) then Z.of_nat i else found)
  end.

(** [s.rfind(c, start, end)] for a single character [c]; [end] omitted is
    the length of [s].  The result is -1 when [c] does not occur. *)
Definition rfind (s : list Z) (c : Z) (start : Z) (end_ : option Z) : Z :=
  let n := length s in
  rfind_go c s 0 (slice_bound n start) (from_option (slice_bound n) n end_) (-1).

(** [s.rstrip()] *)
Fixpoint rstrip (s : list Z) : list Z :=
  match s with
  | [] => []
  | a :: s' =>
      match rstrip s' with
      | [] => if unicode.isspace a then [] else [a]
      | r => a :: r
      end
  end.

(** [clip(text, max_len)]; [end_] is [None] until a space is found. *)
Definition clip (text : list Z) (max_len : Z) : list Z :=
  let end_ : option Z :=
    if decide (Z.of_nat (length text) > max_len) then
      let space_before := rfind text space 0 (Some max_len) in
      if decide (space_before >= 0) then Some space_before
      else
        let space_after := rfind text space max_len None in
        if decide (space_after >= 0) then Some space_after else None
    else None in
  let end_ := default (Z.of_nat (length text)) end_ in
  rstrip (take (slice_bound (length text) end_) text).

(** [clip(text)] with the default [max_len=80]. *)
Definition clip_default (text : list Z) : list Z := clip text 80.

End text.

(** ** tests/test_first_class_functions.py: test_sorted *)

(** ** tests/test_first_class_functions.py: test_methodcaller_operator *)

(** [s.replace(old, new)] for one-character [old] and [new]. *)
Fixpoint replace_char (old new : Ascii.ascii) (s : string) : string :=
  match s with
  | EmptyString => EmptyString
  | String a s' =>
      String (if decide (a = old) then new else a) (replace_char old new s')
  end.

(** [hyphenate = methodcaller('replace', ' ', '-')] *)
Definition hyphenate (s : string) : string :=
  replace_char (Ascii.ascii_of_nat 32) (Ascii.ascii_of_nat 45) s.

Module test_sorted.

(** [len(word)]: the number of characters. *)
Definition len (word : string) : Z := Z.of_nat (length (unicode.decode word)).

(** [a < b] on texts: by code points, position by position. *)
Fixpoint codes_lt (a b : list Z) : bool :=
  match a, b with
  | _, [] => false
  | [], _ :: _ => true
  | x :: a', y :: b' => (x <? y) || ((x =? y) && codes_lt a' b')
  end.

(** [word[::-1]], as its characters. *)
Definition reverse (word : string) : list Z := reverse (unicode.decode word).

End test_sorted.

(** * Theorems *)

(** Splits a conjunction into its members without reducing them. *)
Ltac conjuncts := repeat match goal with |- _ ∧ _ => split end.

(** ** factorial *)

(** The source line, as an equation. *)
Lemma factorial_eqn (n : Z) :
  factorial n = if decide (n < 2) then 1 else n * factorial (n - 1).
Proof.
  rewrite factorial_equation_1. unfold factorial_unfold_clause_1.
  destruct (Z_lt_dec n 2); case_decide; (done || lia).
Qed.

Lemma factorial_small (n : Z) : n < 2 → factorial n = 1.
Proof. intros Hn. rewrite factorial_eqn. by rewrite decide_True. Qed.

Lemma factorial_step (n : Z) : 2 ≤ n → factorial n = n * factorial (n - 1).
Proof. intros Hn. rewrite factorial_eqn. rewrite decide_False; [done | lia]. Qed.

Lemma product_to_S (k : nat) :
  product_to (S k) = Z.of_nat (S k) * product_to k.
Proof.
  unfold product_to. rewrite seq_S, fmap_app, foldr_app. simpl.
  generalize (Z.of_nat <$> seq 1 k). intros l.
  rewrite Z.mul_1_r. generalize (Z.of_nat (S k)). intros a.
  induction l as [| b l IH]; simpl; [lia |]. rewrite IH. lia.
Qed.

Lemma factorial_of_nat (k : nat) : factorial (Z.of_nat k) = product_to k.
Proof.
  induction k as [| k IH]; [done |].
  destruct k as [| k]; [done |].
  rewrite factorial_step by lia.
  replace (Z.of_nat (S (S k)) - 1) with (Z.of_nat (S k)) by lia.
  by rewrite IH, <-product_to_S.
Qed.

(** The number of nested calls [factorial n] makes is [max 1 n]: with at
    least that many allowed the call returns, with fewer it does not. *)
Lemma factorial_within_enough (limit : nat) (n : Z) :
  (Z.to_nat (Z.max 1 n) ≤ limit)%nat → factorial_within limit n = Some (factorial n).
Proof.
  revert n. induction limit as [| limit IH]; intros n Hn; [lia |].
  simpl. destruct (Z_lt_dec n 2) as [Hlt | Hge].
  - by rewrite factorial_small.
  - rewrite IH by lia. simpl. by rewrite <-factorial_step by lia.
Qed.

Lemma factorial_within_short (limit : nat) (n : Z) :
  (limit < Z.to_nat (Z.max 1 n))%nat → factorial_within limit n = None.
Proof.
  revert n. induction limit as [| limit IH]; intros n Hn; [done |].
  simpl. destruct (Z_lt_dec n 2) as [Hlt | Hge]; [lia |].
  by rewrite IH by lia.
Qed.

(** C5. For every integer [n >= 0], [factorial n] is [n!], the product
    1 * 2 * ... * n (1 for [n = 0]); it satisfies the recursion
    [1 if n < 2 else n * factorial(n - 1)]; and [factorial 42] is the value
    the test asserts. *)
Theorem factorial_correct (n : Z) :
  0 ≤ n →
  factorial n = product_to (Z.to_nat n)
  ∧ factorial n = (if decide (n < 2) then 1 else n * factorial (n - 1))
  ∧ product_to 0 = 1
  ∧ factorial 42 = 1405006117752879898543142606244511569936384000000000.
Proof.
  intros Hn. split_and!.
  - by rewrite <-(Z2Nat.id n) at 1 by done; rewrite factorial_of_nat.
  - apply factorial_eqn.
  - done.
  - change 42 with (Z.of_nat 42). rewrite factorial_of_nat. by vm_compute.
Qed.

Lemma factorial_correct_witness :
  factorial 5 = product_to 5 ∧ product_to 5 = 120.
Proof.
  split; [| by vm_compute].
  apply (proj1 (factorial_correct 5 ltac:(lia))).
Defined.

(** C9. [factorial] returns on every integer: some number of nested calls
    suffices; and for [n < 2], negative [n] included, the result is 1 and
    the very first call returns it, without recursing. *)
Theorem factorial_total (n : Z) :
  (∃ limit, factorial_within limit n = Some (factorial n))
  ∧ (n < 2 → factorial n = 1 ∧ ∀ limit, factorial_within (S limit) n = Some 1).
Proof.
  split.
  - exists (Z.to_nat (Z.max 1 n)). by apply factorial_within_enough.
  - intros Hn. split; [by apply factorial_small |].
    intros limit. rewrite factorial_within_enough by lia.
    by rewrite factorial_small.
Qed.

Lemma factorial_total_witness :
  factorial (-7) = 1 ∧ factorial_within 1 (-7) = Some 1.
Proof.
  destruct (proj2 (factorial_total (-7)) ltac:(lia)) as [H1 H2].
  split; [exact H1 | exact (H2 O)].
Defined.

(** ** Vector *)

Section vector_facts.
Import vector.

Lemma alloc_fresh (v : Vector) (σ : gmap positive Vector) :
  σ !! (alloc v σ).1 = None.
Proof. simpl. apply not_elem_of_dom, is_fresh. Qed.

Lemma alloc_lookup (v : Vector) (σ : gmap positive Vector) :
  (alloc v σ).2 !! (alloc v σ).1 = Some v.
Proof. simpl. apply lookup_insert_eq. Qed.

Lemma alloc_frame (v w : Vector) (σ : gmap positive Vector) (p : positive) :
  σ !! p = Some w → (alloc v σ).2 !! p = Some w.
Proof.
  intros Hp. simpl. rewrite lookup_insert_ne; [done |].
  intros <-. pose proof (alloc_fresh v σ) as Hf. simpl in Hf. congruence.
Qed.

Lemma step_frame (o : op) (σ σ' : gmap positive Vector) (r p : positive) (w : Vector) :
  step o σ = Some (r, σ') → σ !! p = Some w → σ' !! p = Some w.
Proof.
  destruct o as [a b | a k]; simpl; unfold add_obj, mul_obj; intros Hstep Hp.
  - destruct (σ !! a) as [va |]; [| done]. destruct (σ !! b) as [vb |]; [| done].
    simpl in Hstep. injection Hstep as <- <-. by apply alloc_frame.
  - destruct (σ !! a) as [va |]; [| done].
    simpl in Hstep. injection Hstep as <- <-. by apply alloc_frame.
Qed.

Lemma run_frame (ops : list op) (σ : gmap positive Vector) (p : positive) (w : Vector) :
  σ !! p = Some w → run ops σ !! p = Some w.
Proof.
  revert σ. induction ops as [| o ops IH]; intros σ Hp; [done |].
  simpl. apply IH. destruct (step o σ) as [[r σ'] |] eqn:Hstep; [| done].
  simpl. by eapply step_frame.
Qed.

End vector_facts.

(** C4. Addition is componentwise and multiplication by a scalar scales
    both components, for all integers. *)
Theorem Vector_add_mul (a b c d k : Z) :
  vector.__add__ (vector.new a b) (vector.new c d) = vector.new (a + c) (b + d)
  ∧ vector.__mul__ (vector.new a b) k = vector.new (a * k) (b * k).
Proof. done. Qed.

(** The two examples of the module's docstring. *)
Example Vector_docstring :
  vector.__add__ (vector.new 2 4) (vector.new 2 1) = vector.new 4 5
  ∧ vector.__mul__ (vector.new 3 4) 3 = vector.new 9 12.
Proof. done. Qed.

(** C10. [bool(Vector(x, y))] is [False] exactly when both components are
    zero. *)
Theorem Vector_bool_false_iff (x y : Z) :
  vector.__bool__ (vector.new x y) = false ↔ x = 0 ∧ y = 0.
Proof.
  unfold vector.__bool__, vector.int_or, vector.int_bool. simpl.
  destruct (Z.eqb_spec x 0) as [-> | Hx]; simpl.
  - rewrite negb_false_iff, Z.eqb_eq. tauto.
  - rewrite negb_false_iff, Z.eqb_eq. tauto.
Qed.

(** C7. Fields are never written.  An assignment to a field of a [Card]
    raises and leaves the card as it was, so no sequence of assignments
    changes its rank or suit.  [+] and [*] on vectors return a newly
    allocated object holding the result, and every object that existed
    before the call, the operands included, keeps its [x] and [y]; the same
    holds along any sequence of these calls. *)
Theorem fields_immutable :
  (∀ (c : french_deck.Card) (name value : string),
      french_deck.Card_setattr c name value = (Raise AttributeError, c))
  ∧ (∀ (c : french_deck.Card) (writes : list (string * string)),
      french_deck.rank (french_deck.setattrs c writes) = french_deck.rank c
      ∧ french_deck.suit (french_deck.setattrs c writes) = french_deck.suit c)
  ∧ (∀ (σ : gmap positive vector.Vector) (a b : positive) (va vb : vector.Vector),
      σ !! a = Some va → σ !! b = Some vb →
      ∃ r σ', vector.add_obj a b σ = Some (r, σ')
        ∧ σ !! r = None
        ∧ σ' !! r = Some (vector.__add__ va vb)
        ∧ σ' !! a = Some va ∧ σ' !! b = Some vb
        ∧ ∀ p v, σ !! p = Some v → σ' !! p = Some v)
  ∧ (∀ (σ : gmap positive vector.Vector) (a : positive) (k : Z) (va : vector.Vector),
      σ !! a = Some va →
      ∃ r σ', vector.mul_obj a k σ = Some (r, σ')
        ∧ σ !! r = None
        ∧ σ' !! r = Some (vector.__mul__ va k)
        ∧ σ' !! a = Some va
        ∧ ∀ p v, σ !! p = Some v → σ' !! p = Some v)
  ∧ (∀ (ops : list vector.op) (σ : gmap positive vector.Vector) (p : positive)
       (v : vector.Vector),
      σ !! p = Some v → vector.run ops σ !! p = Some v).
Proof.
  split_and!.
  - done.
  - intros c writes. induction writes as [| [name value] writes IH]; done.
  - intros σ a b va vb Ha Hb.
    exists (vector.alloc (vector.__add__ va vb) σ).1,
           (vector.alloc (vector.__add__ va vb) σ).2.
    split_and!; eauto using alloc_fresh, alloc_lookup, alloc_frame.
    unfold vector.add_obj. by rewrite Ha, Hb.
  - intros σ a k va Ha.
    exists (vector.alloc (vector.__mul__ va k) σ).1,
           (vector.alloc (vector.__mul__ va k) σ).2.
    split_and!; eauto using alloc_fresh, alloc_lookup, alloc_frame.
    unfold vector.mul_obj. by rewrite Ha.
  - apply run_frame.
Qed.

(** [v + v] on a store holding only [v = Vector(3, 4)]: the result is a new
    object and [v] is unchanged, although it is both operands. *)
Lemma fields_immutable_witness :
  ∃ r σ', vector.add_obj 1 1 {[1%positive := vector.new 3 4]} = Some (r, σ')
    ∧ σ' !! r = Some (vector.new 6 8)
    ∧ σ' !! 1%positive = Some (vector.new 3 4).
Proof.
  assert (({[1%positive := vector.new 3 4]} : gmap positive vector.Vector)
            !! 1%positive = Some (vector.new 3 4)) as Hσ
    by (vm_compute; reflexivity).
  destruct (proj1 (proj2 (proj2 fields_immutable)) _ _ _ _ _ Hσ Hσ)
    as (r & σ' & Hadd & _ & Hr & Ha & _).
  exists r, σ'. split_and!; [exact Hadd | exact Hr | exact Ha].
Defined.

(** ** sorted *)

Section sorted_facts.
Import builtins.
Context {A K : Type} (lt : K → K → bool).

Abbreviation key_le := (@builtins.key_le A K lt) (only parsing).

Hypothesis lt_asym : ∀ a b, lt a b = true → lt b a = false.
Hypothesis key_le_trans : Transitive key_le.

Lemma insort_Permutation (x : K * A) (l : list (K * A)) : insort lt x l ≡ₚ x :: l.
Proof.
  induction l as [| y l IH]; simpl; [done |].
  destruct (lt y.1 x.1); [| done].
  by rewrite IH, Permutation_swap.
Qed.

Lemma sort_keyed_Permutation (l : list (K * A)) : sort_keyed lt l ≡ₚ l.
Proof.
  induction l as [| x l IH]; simpl; [done |].
  by rewrite insort_Permutation, IH.
Qed.

Lemma HdRel_insort (x y : K * A) (l : list (K * A)) :
  key_le y x → HdRel key_le y l → HdRel key_le y (insort lt x l).
Proof.
  intros Hyx Hy. destruct l as [| z l]; simpl; [by constructor |].
  inversion_clear Hy. destruct (lt z.1 x.1); by constructor.
Qed.

Lemma Sorted_insort (x : K * A) (l : list (K * A)) :
  Sorted key_le l → Sorted key_le (insort lt x l).
Proof.
  induction 1 as [| y l Hl IH Hy]; simpl; [by repeat constructor |].
  destruct (lt y.1 x.1) eqn:Hlt.
  - constructor; [done |]. apply HdRel_insort; [| done].
    unfold key_le. by apply lt_asym.
  - repeat constructor; done.
Qed.

Lemma Sorted_sort_keyed (l : list (K * A)) : Sorted key_le (sort_keyed lt l).
Proof.
  induction l as [| x l IH]; simpl; [constructor | by apply Sorted_insort].
Qed.

Lemma StronglySorted_sort_keyed (l : list (K * A)) :
  StronglySorted key_le (sort_keyed lt l).
Proof. apply Sorted_StronglySorted; [done | apply Sorted_sort_keyed]. Qed.

(** Decorating with the keys succeeds exactly when every key does, and
    then pairs every item, in order, with its key. *)
Lemma map_result_decorate (key : A → result K) (l : list A) (ks : list (K * A)) :
  map_result (λ a, k ← key a; Ok (k, a)) l = Ok ks →
  ks.*2 = l ∧ Forall (λ p, key p.2 = Ok p.1) ks.
Proof.
  revert ks. induction l as [| a l IH]; simpl; intros ks Hks.
  - injection Hks as <-. by split.
  - destruct (key a) as [k |] eqn:Hk; [| done]. simpl in Hks.
    destruct (map_result _ l) as [ks' |]; [| done]. simpl in Hks.
    injection Hks as <-. destruct (IH ks' eq_refl) as [<- Hall].
    split; [done |]. by constructor.
Qed.

Lemma StronglySorted_Forall_impl {B} (R R' : relation B) (P : B → Prop) (l : list B) :
  (∀ x y, P x → P y → R x y → R' x y) →
  Forall P l → StronglySorted R l → StronglySorted R' l.
Proof.
  intros HR HP. induction 1 as [| x l Hl IH Hx]; [constructor |].
  inversion_clear HP as [| ? ? Px Pl]. constructor; [by apply IH |].
  rewrite Forall_forall in *. eauto.
Qed.

(** [sorted(l, key=f)] returns the items of [l] rearranged so that the keys
    never decrease. *)
Lemma sorted_spec (key : A → result K) (l l' : list A) :
  sorted lt key l = Ok l' →
  l' ≡ₚ l
  ∧ StronglySorted
      (λ a b, ∃ ka kb, key a = Ok ka ∧ key b = Ok kb ∧ lt kb ka = false) l'.
Proof.
  unfold sorted. intros Hs.
  destruct (map_result _ l) as [ks |] eqn:Hks; [| done]. simpl in Hs.
  injection Hs as <-. apply map_result_decorate in Hks as [<- Hall]. split.
  - by rewrite sort_keyed_Permutation.
  - apply (StronglySorted_fmap _
             (λ p q, key p.2 = Ok p.1 ∧ key q.2 = Ok q.1 ∧ key_le p q)).
    { intros [ka a] [kb b] (Ha & Hb & Hab). by exists ka, kb. }
    apply (StronglySorted_Forall_impl key_le _ (λ p, key p.2 = Ok p.1));
      [done | | apply StronglySorted_sort_keyed].
    by rewrite sort_keyed_Permutation.
Qed.

End sorted_facts.

(** ** FrenchDeck *)

Section french_deck_facts.
Import builtins french_deck.

Lemma ranks_eq :
  ranks = ["2"; "3"; "4"; "5"; "6"; "7"; "8"; "9"; "10"; "J"; "Q"; "K"; "A"].
Proof. by vm_compute. Qed.

Lemma suits_eq : suits = ["spades"; "diamonds"; "clubs"; "hearts"].
Proof. by vm_compute. Qed.

Lemma elem_of_cards (r s : string) :
  mkCard r s ∈ _cards __init__ ↔ r ∈ ranks ∧ s ∈ suits.
Proof.
  unfold __init__. cbn [_cards]. rewrite list_elem_of_bind. split.
  - intros (s' & Hin & Hs'). apply list_elem_of_bind in Hin as (r' & Hin & Hr').
    apply list_elem_of_singleton in Hin. by simplify_eq.
  - intros [Hr Hs]. exists s. split; [| done].
    apply list_elem_of_bind. exists r. split; [| done].
    by apply list_elem_of_singleton.
Qed.

(** A comprehension with one item per element is a map. *)
Lemma bind_singleton_fmap {A B} (g : A → B) (l : list A) :
  (x ← l; [g x]) = g <$> l.
Proof. induction l as [| a l IH]; [done |]. by rewrite bind_cons, IH. Qed.

(** The layout of a nested comprehension whose inner lists all have
    length [n]: block [i], offset [j]. *)
Lemma lookup_bind_uniform {A B} (f : A → list B) (n : nat) (l : list A)
    (i j : nat) (a : A) :
  (∀ a', length (f a') = n) → l !! i = Some a → (j < n)%nat →
  (l ≫= f) !! (n * i + j)%nat = f a !! j.
Proof.
  intros Hlen. revert i. induction l as [| a' l IH]; intros i Hi Hj; [done |].
  rewrite bind_cons. destruct i as [| i]; simpl in Hi.
  - simplify_eq. rewrite lookup_app_l by (rewrite Hlen; lia).
    f_equal. lia.
  - rewrite lookup_app_r by (rewrite Hlen; lia). rewrite Hlen.
    rewrite <-(IH i Hi Hj). f_equal. lia.
Qed.

Lemma cards_lookup (i j : nat) (s r : string) :
  suits !! i = Some s → ranks !! j = Some r →
  _cards __init__ !! (13 * i + j)%nat = Some (mkCard r s).
Proof.
  intros Hs Hr. unfold __init__. cbn [_cards].
  assert (length ranks = 13%nat) as Hlen by (by vm_compute).
  rewrite (lookup_bind_uniform _ 13 suits i j s); [| | done |].
  - by rewrite bind_singleton_fmap, list_lookup_fmap, Hr.
  - intros s'. by rewrite bind_singleton_fmap, length_fmap.
  - rewrite <-Hlen. by eapply lookup_lt_Some.
Qed.

Lemma getitem_of_nat {A} (l : list A) (n : nat) :
  getitem l (Z.of_nat n)
  = match l !! n with Some a => Ok a | None => Raise IndexError end.
Proof.
  unfold getitem. cbv zeta.
  destruct (decide (Z.of_nat n < 0)) as [? | _]; [lia |].
  destruct (decide (0 ≤ Z.of_nat n)) as [_ | ?]; [| lia].
  by rewrite Nat2Z.id.
Qed.

(** Iterating over the deck reads every card, in order. *)
Lemma iter_from_cards (cards : list Card) (pre : list Card) :
  iter_from (mkDeck (pre ++ cards)) (S (length cards)) (Z.of_nat (length pre))
  = Ok cards.
Proof.
  revert pre. induction cards as [| c cards IH]; intros pre.
  - simpl. unfold __getitem__. cbn [_cards].
    rewrite getitem_of_nat, app_nil_r, lookup_ge_None_2; done.
  - change (iter_from ?d (S ?f) ?i) with
      (match __getitem__ d i with
       | Ok c => l ← iter_from d f (i + 1); Ok (c :: l)
       | Raise IndexError => Ok []
       | Raise e => Raise e
       end).
    unfold __getitem__ at 1. cbn [_cards].
    rewrite getitem_of_nat, list_lookup_middle by done.
    specialize (IH (pre ++ [c])).
    rewrite <-app_assoc, length_app in IH. cbn [app length] in IH.
    replace (Z.of_nat (length pre) + 1) with (Z.of_nat (length pre + 1)) by lia.
    cbn [length]. by rewrite IH.
Qed.

Lemma iter_cards (self : FrenchDeck) : iter self = Ok (_cards self).
Proof. destruct self as [cards]. apply (iter_from_cards cards []). Qed.

Lemma size_suit_values : size suit_values = 4%nat.
Proof. by vm_compute. Qed.

Lemma sorting_value (self : FrenchDeck) (card : Card) (i v : Z) :
  index ranks (rank card) = Ok i → suit_values !! suit card = Some v →
  sorting self card = Ok (i * 4 + v).
Proof.
  intros Hi Hv. unfold sorting, dict_getitem. rewrite Hi, Hv. simpl.
  rewrite size_suit_values. reflexivity.
Qed.

Lemma Zltb_asym (a b : Z) : (a <? b) = true → (b <? a) = false.
Proof. rewrite Z.ltb_lt, Z.ltb_ge. lia. Qed.

Lemma Zltb_key_le_trans {A} : Transitive (@key_le A Z Z.ltb).
Proof. intros x y z. unfold key_le. rewrite !Z.ltb_ge. lia. Qed.

End french_deck_facts.

(** C3. A new deck has 52 cards, without repetition: exactly the pairs of
    one of the 13 ranks with one of the 4 suits.  They are laid out by suit,
    in the order spades, diamonds, clubs, hearts, and by rank '2' .. 'A'
    within a suit: the card at position [13 * i + j] has the [i]-th suit and
    the [j]-th rank. *)
Theorem FrenchDeck_layout :
  french_deck.__len__ french_deck.__init__ = 52
  ∧ length french_deck.ranks = 13%nat
  ∧ length french_deck.suits = 4%nat
  ∧ NoDup (french_deck._cards french_deck.__init__)
  ∧ (∀ r s, french_deck.mkCard r s ∈ french_deck._cards french_deck.__init__
            ↔ r ∈ french_deck.ranks ∧ s ∈ french_deck.suits)
  ∧ french_deck.suits = ["spades"; "diamonds"; "clubs"; "hearts"]
  ∧ french_deck.ranks
    = ["2"; "3"; "4"; "5"; "6"; "7"; "8"; "9"; "10"; "J"; "Q"; "K"; "A"]
  ∧ (∀ (i j : nat) (s r : string),
       french_deck.suits !! i = Some s → french_deck.ranks !! j = Some r →
       french_deck.__getitem__ french_deck.__init__ (Z.of_nat (13 * i + j))
       = Ok (french_deck.mkCard r s)).
Proof.
  conjuncts.
  - by vm_compute.
  - by vm_compute.
  - by vm_compute.
  - apply (bool_decide_unpack _). by vm_compute.
  - apply elem_of_cards.
  - apply suits_eq.
  - apply ranks_eq.
  - intros i j s r Hs Hr. unfold french_deck.__getitem__.
    by rewrite getitem_of_nat, (cards_lookup i j s r).
Qed.

Lemma FrenchDeck_layout_witness :
  french_deck.__getitem__ french_deck.__init__ 28
  = Ok (french_deck.mkCard "4" "clubs").
Proof.
  apply (proj2 (proj2 (proj2 (proj2 (proj2 (proj2 (proj2 FrenchDeck_layout))))))
           2%nat 2%nat "clubs" "4");
    vm_compute; reflexivity.
Defined.

(** The examples in the comments of [french_deck.py]. *)
Example FrenchDeck_getitem_examples :
  french_deck.__getitem__ french_deck.__init__ 0
  = Ok (french_deck.mkCard "2" "spades")
  ∧ french_deck.__getitem__ french_deck.__init__ (-1)
    = Ok (french_deck.mkCard "A" "hearts")
  ∧ french_deck.__getitem__ french_deck.__init__ 52 = Raise IndexError.
Proof. by vm_compute. Qed.

(** C1. [sorting] maps a card to (index of its rank in [ranks]) * (number
    of entries of [suit_values], which is 4) + (value of its suit);
    [sorted()] on a new deck returns its 52 cards, rearranged so that this
    key never decreases; the first is the 2 of clubs and the last the ace
    of spades. *)
Theorem FrenchDeck_sorted :
  (∀ (self : french_deck.FrenchDeck) (card : french_deck.Card) (i v : Z),
     builtins.index french_deck.ranks (french_deck.rank card) = Ok i →
     french_deck.suit_values !! french_deck.suit card = Some v →
     french_deck.sorting self card = Ok (i * 4 + v))
  ∧ size french_deck.suit_values = 4%nat
  ∧ french_deck.suit_values !! "spades" = Some 3
  ∧ french_deck.suit_values !! "hearts" = Some 2
  ∧ french_deck.suit_values !! "diamonds" = Some 1
  ∧ french_deck.suit_values !! "clubs" = Some 0
  ∧ ∃ l : list french_deck.Card,
      french_deck.sorted french_deck.__init__ = Ok l
      ∧ length l = 52%nat
      ∧ l ≡ₚ french_deck._cards french_deck.__init__
      ∧ StronglySorted
          (λ c d, ∃ kc kd,
             french_deck.sorting french_deck.__init__ c = Ok kc
             ∧ french_deck.sorting french_deck.__init__ d = Ok kd
             ∧ kc ≤ kd) l
      ∧ head l = Some (french_deck.mkCard "2" "clubs")
      ∧ last l = Some (french_deck.mkCard "A" "spades").
Proof.
  conjuncts; [apply sorting_value | vm_compute; reflexivity.. |].
  destruct (builtins.sorted Z.ltb (french_deck.sorting french_deck.__init__)
              (french_deck._cards french_deck.__init__)) as [l | e] eqn:Hs;
    [| vm_compute in Hs; discriminate Hs].
  exists l.
  destruct (sorted_spec Z.ltb Zltb_asym Zltb_key_le_trans _ _ _ Hs)
    as [Hperm Hsorted].
  conjuncts.
  - unfold french_deck.sorted. rewrite iter_cards. exact Hs.
  - rewrite Hperm. vm_compute. reflexivity.
  - exact Hperm.
  - eapply (StronglySorted_Forall_impl _ _ (λ _, True)); [| | exact Hsorted].
    + intros c d _ _ (kc & kd & Hc & Hd & Hle). exists kc, kd.
      rewrite Z.ltb_ge in Hle. repeat split; assumption.
    + apply Forall_forall. intros; exact I.
  - vm_compute in Hs. injection Hs as <-. reflexivity.
  - vm_compute in Hs. injection Hs as <-. reflexivity.
Qed.

Lemma FrenchDeck_sorted_witness :
  french_deck.sorting french_deck.__init__ (french_deck.mkCard "A" "spades")
  = Ok 51.
Proof.
  apply (proj1 FrenchDeck_sorted french_deck.__init__
           (french_deck.mkCard "A" "spades") 12 3);
    vm_compute; reflexivity.
Defined.

(** ** BingoCage *)

Section BingoCage_facts.
Import builtins random BingoCage.

Lemma swap_Permutation {A} (i j : nat) (x : list A) : swap i j x ≡ₚ x.
Proof.
  unfold swap. destruct (x !! i) as [xi |] eqn:Hi; [| reflexivity].
  destruct (x !! j) as [xj |] eqn:Hj; [| reflexivity].
  by apply Permutation_insert_swap.
Qed.

Lemma shuffle_from_Permutation {A} (rng : nat → nat) (t i : nat) (x : list A) :
  shuffle_from rng t i x ≡ₚ x.
Proof.
  revert t x. induction i as [| i IH]; intros t x; simpl; [reflexivity |].
  by rewrite IH, swap_Permutation.
Qed.

(** Whatever the generator draws, shuffling rearranges the list. *)
Lemma shuffle_Permutation {A} (rng : nat → nat) (x : list A) : shuffle rng x ≡ₚ x.
Proof. apply shuffle_from_Permutation. Qed.

Lemma pop_nil {A} : pop (@nil A) = Raise IndexError.
Proof. reflexivity. Qed.

Lemma pop_snoc {A} (l : list A) (a : A) : pop (l ++ [a]) = Ok (a, l).
Proof.
  unfold pop. rewrite last_snoc, length_app. simpl.
  replace (length l + 1 - 1)%nat with (length l) by lia.
  by rewrite take_app_length.
Qed.

Lemma pick_empty (self : BingoCage) :
  _items self = [] →
  pick self = (Raise (LookupError "pick from empty BingoCage"), self).
Proof. intros Hnil. unfold pick. by rewrite Hnil. Qed.

Lemma pick_snoc (self : BingoCage) (rest : list Z) (a : Z) :
  _items self = rest ++ [a] → pick self = (Ok a, mk rest).
Proof. intros Hitems. unfold pick. by rewrite Hitems, pop_snoc. Qed.

(** A call of [pick] only ever drops the last item. *)
Lemma pick_items (self : BingoCage) :
  _items (pick self).2 = take (length (_items self) - 1) (_items self).
Proof.
  destruct (_items self) as [| a l] eqn:Hitems using rev_ind.
  - by rewrite pick_empty.
  - rewrite (pick_snoc self l a) by done. rewrite length_app. simpl.
    replace (length l + 1 - 1)%nat with (length l) by lia.
    by rewrite take_app_length.
Qed.

Lemma after_picks_items (n : nat) (self : BingoCage) :
  _items (after_picks n self) = take (length (_items self) - n) (_items self).
Proof.
  revert self. induction n as [| n IH]; intros self; simpl.
  - by rewrite Nat.sub_0_r, firstn_all.
  - rewrite IH, pick_items, length_take, take_take. f_equal. lia.
Qed.

(** The cage [n] picks after its construction from [items]. *)
Lemma pick_after_picks (rng : nat → nat) (items : list Z) (n : nat) :
  let cage := after_picks n (__init__ rng items) in
  length (_items cage) = (length items - n)%nat
  ∧ match _items cage with
    | [] =>
        pop (_items cage) = Raise IndexError
        ∧ pick cage = (Raise (LookupError "pick from empty BingoCage"), cage)
    | _ :: _ =>
        ∃ (a : Z) (cage' : BingoCage),
          pick cage = (Ok a, cage')
          ∧ a ∈ items
          ∧ _items cage = _items cage' ++ [a]
    end.
Proof.
  intros cage.
  assert (_items cage = take (length items - n) (shuffle rng items)) as Hcage.
  { unfold cage. rewrite after_picks_items. simpl.
    by rewrite (Permutation_length (shuffle_Permutation rng items)). }
  split.
  - rewrite Hcage, length_take.
    rewrite (Permutation_length (shuffle_Permutation rng items)). lia.
  - destruct (_items cage) as [| b l'] eqn:Hitems.
    + split; [reflexivity | by apply pick_empty].
    + destruct (exists_last (l := b :: l') ltac:(discriminate))
        as (rest & a & Hsnoc).
      exists a, (mk rest). split; [| split].
      * apply pick_snoc. congruence.
      * rewrite <-(shuffle_Permutation rng items).
        apply (subseteq_take (length items - n)).
        rewrite <-Hcage, Hsnoc. set_solver.
      * exact Hsnoc.
Qed.

End BingoCage_facts.

(** C2. In a cage built from [items], after any number of earlier picks:
    if the cage is empty, the pop raises [IndexError] and [pick] raises
    [LookupError('pick from empty BingoCage')] instead, leaving the cage
    empty; otherwise [pick] raises nothing, returns one of [items], and
    removes it from the cage. *)
Theorem BingoCage_pick (rng : nat → nat) (items : list Z) (n : nat) :
  let cage := BingoCage.after_picks n (BingoCage.__init__ rng items) in
  length (BingoCage._items cage) = (length items - n)%nat
  ∧ match BingoCage._items cage with
    | [] =>
        builtins.pop (BingoCage._items cage) = Raise IndexError
        ∧ BingoCage.pick cage
          = (Raise (LookupError "pick from empty BingoCage"), cage)
    | _ :: _ =>
        ∃ (a : Z) (cage' : BingoCage.BingoCage),
          BingoCage.pick cage = (Ok a, cage')
          ∧ a ∈ items
          ∧ BingoCage._items cage = BingoCage._items cage' ++ [a]
    end.
Proof. apply pick_after_picks. Qed.

(** The cage of the test, [BingoCage(range(3))]: three picks succeed with
    items of [[0, 1, 2]], the fourth raises. *)
Example BingoCage_test (rng : nat → nat) :
  let bingo := BingoCage.__init__ rng (builtins.range 0 3) in
  (∀ n, (n < 3)%nat →
     ∃ a, (BingoCage.pick (BingoCage.after_picks n bingo)).1 = Ok a
          ∧ a ∈ [0; 1; 2])
  ∧ (BingoCage.pick (BingoCage.after_picks 3 bingo)).1
    = Raise (LookupError "pick from empty BingoCage").
Proof.
  intros bingo. split.
  - intros n Hn. destruct (pick_after_picks rng (builtins.range 0 3) n) as [Hlen Hp].
    fold bingo in Hlen, Hp.
    destruct (BingoCage._items (BingoCage.after_picks n bingo)) as [| b l].
    { simpl in Hlen. change (length (builtins.range 0 3)) with 3%nat in Hlen. lia. }
    destruct Hp as (a & cage' & -> & Ha & _). by exists a.
  - destruct (pick_after_picks rng (builtins.range 0 3) 3) as [Hlen Hp].
    fold bingo in Hlen, Hp.
    destruct (BingoCage._items (BingoCage.after_picks 3 bingo)) as [| b l].
    + by destruct Hp as [_ ->].
    + by simpl in Hlen.
Qed.

(** ** Strings: order and joining *)

Section string_facts.
Import builtins.

Lemma str_lt_false_iff (a b : string) : str_lt b a = false ↔ String.le a b.
Proof.
  unfold str_lt, String.le, String.leb. rewrite (String.compare_antisym b a).
  destruct (String.compare a b); simpl; split; done.
Qed.

Lemma str_lt_true_iff (a b : string) : str_lt a b = true ↔ String.le a b ∧ a ≠ b.
Proof.
  unfold str_lt, String.le, String.leb.
  destruct (String.compare a b) eqn:Hc; simpl.
  - apply String.compare_eq_iff in Hc. split; [done | by intros [_ ?]].
  - split; [intros _ | done]. split; [done |]. intros ->.
    pose proof (String.compare_antisym b b) as Hanti.
    rewrite Hc in Hanti. discriminate.
  - split; [done | by intros [? _]].
Qed.

(** [not (b < a)] on pairs: the first members are in order, and the second
    ones too when the first are equal. *)
Lemma tuple_lt_false_iff (a b : string * string) :
  tuple_lt b a = false ↔ String.le a.1 b.1 ∧ (a.1 ≠ b.1 ∨ String.le a.2 b.2).
Proof.
  unfold tuple_lt. rewrite orb_false_iff, andb_false_iff, bool_decide_eq_false.
  rewrite !str_lt_false_iff. intuition congruence.
Qed.

Lemma tuple_lt_asym (a b : string * string) :
  tuple_lt a b = true → tuple_lt b a = false.
Proof.
  unfold tuple_lt at 1.
  rewrite orb_true_iff, andb_true_iff, bool_decide_eq_true, !str_lt_true_iff.
  rewrite tuple_lt_false_iff. intros [[Hle Hne] | (Heq & Hle & Hne)].
  - split; [done | by left].
  - split; [by rewrite Heq | by right].
Qed.

Lemma tuple_key_le_trans {A} : Transitive (@key_le A (string * string) tuple_lt).
Proof.
  intros x y z. unfold key_le. rewrite !tuple_lt_false_iff.
  intros [Hxy Hxy'] [Hyz Hyz']. split; [by etrans |].
  destruct (decide (x.1.1 = z.1.1)) as [Heq | Hne]; [right | by left].
  assert (x.1.1 = y.1.1) as Hxy1.
  { apply (anti_symm String.le); [done |]. by rewrite Heq. }
  assert (y.1.1 = z.1.1) as Hyz1 by congruence.
  destruct Hxy' as [? | Hxy']; [done |]. destruct Hyz' as [? | Hyz']; [done |].
  by etrans.
Qed.

Lemma string_app_assoc (a b c : string) : (a +:+ b) +:+ c = a +:+ (b +:+ c).
Proof.
  induction a as [| x a IH]; [done |].
  change (String x ((a +:+ b) +:+ c) = String x (a +:+ (b +:+ c))).
  by rewrite IH.
Qed.

Lemma concat_app_head (sep p q : string) (l : list string) :
  String.concat sep ((p +:+ q) :: l) = p +:+ String.concat sep (q :: l).
Proof. destruct l as [| x l]; [done |]. simpl. apply string_app_assoc. Qed.

(** [sep.join(l)], accumulated from the left, is the concatenation of the
    items with [sep] between neighbours. *)
Lemma join_concat (sep : string) (l : list string) :
  join sep l = String.concat sep l.
Proof.
  destruct l as [| a l]; [done |]. unfold join. revert a.
  induction l as [| b l IH]; intros a; [done |].
  cbn [foldl]. rewrite IH, !concat_app_head. reflexivity.
Qed.

(** Sorting without a key: a rearrangement in which no item is followed
    by a smaller one. *)
Lemma sorted_plain_spec {A} (lt : A → A → bool) (l : list A) :
  (∀ a b, lt a b = true → lt b a = false) →
  Transitive (@key_le A A lt) →
  sorted_plain lt l ≡ₚ l
  ∧ StronglySorted (λ a b, lt b a = false) (sorted_plain lt l).
Proof.
  intros Hasym Htrans. unfold sorted_plain. split.
  - rewrite sort_keyed_Permutation, <-list_fmap_compose.
    by rewrite list_fmap_id.
  - apply (StronglySorted_fmap _ (λ p q : A * A, p.1 = p.2 ∧ q.1 = q.2 ∧ key_le lt p q)).
    { intros [a1 a2] [b1 b2] (Ha & Hb & Hab). simpl in *. by subst. }
    apply (StronglySorted_Forall_impl (key_le lt) _ (λ p, p.1 = p.2));
      [done | | by apply StronglySorted_sort_keyed].
    rewrite sort_keyed_Permutation. by apply Forall_fmap, Forall_forall.
Qed.

(** A sorted list with distinct keys is strictly sorted. *)
Lemma StronglySorted_NoDup_strict {B C} (R : relation B) (f : B → C) (l : list B) :
  StronglySorted R l → NoDup (f <$> l) →
  StronglySorted (λ a b, R a b ∧ f a ≠ f b) l.
Proof.
  induction 1 as [| x l Hl IH Hx]; intros Hnd; [constructor |].
  rewrite fmap_cons in Hnd. apply NoDup_cons in Hnd as [Hnotin Hnd].
  constructor; [by apply IH |].
  rewrite Forall_forall in *. intros y Hy. split; [by apply Hx |].
  intros Heq. apply Hnotin. rewrite Heq. by apply list_elem_of_fmap_2.
Qed.

(** The attributes that are rendered: [attrs], with [cls] stored under
    ['class'] when it is given. *)
Lemma rendered_attrs_lookup (cls : option string) (attrs : gmap string string)
    (k v : string) :
  (match cls with Some c => <["class" := c]> attrs | None => attrs end) !! k = Some v
  ↔ (k = "class" ∧ cls = Some v)
    ∨ ((k ≠ "class" ∨ cls = None) ∧ attrs !! k = Some v).
Proof.
  destruct cls as [c |]; [| intuition congruence].
  destruct (decide (k = "class")) as [-> | Hne].
  - rewrite lookup_insert_eq. intuition congruence.
  - rewrite lookup_insert_ne by done. intuition congruence.
Qed.

Lemma tag_format_items (name : string) (content : list string)
    (cls : option string) (attrs : gmap string string) :
  ∃ items : list (string * string),
    (∀ k v, (k, v) ∈ items
            ↔ (k = "class" ∧ cls = Some v)
              ∨ ((k ≠ "class" ∨ cls = None) ∧ attrs !! k = Some v))
    ∧ StronglySorted (λ p q, str_lt p.1 q.1 = true) items
    ∧ tag name content cls attrs
      = let ATTRS :=
          String.concat ""
            ((λ kv, " " +:+ kv.1 +:+ "=" +:+ dquote +:+ kv.2 +:+ dquote) <$> items) in
        match content with
        | [] => "<" +:+ name +:+ ATTRS +:+ " />"
        | _ :: _ =>
            String.concat newline
              ((λ c, "<" +:+ name +:+ ATTRS +:+ ">" +:+ c +:+ "</" +:+ name +:+ ">")
                 <$> content)
        end.
Proof.
  set (attrs' := match cls with Some c => <["class" := c]> attrs | None => attrs end).
  destruct (sorted_plain_spec tuple_lt (map_to_list attrs')
              tuple_lt_asym tuple_key_le_trans) as [Hperm Hsorted].
  exists (sorted_plain tuple_lt (map_to_list attrs')). split; [| split].
  - intros k v. rewrite Hperm, elem_of_map_to_list.
    apply rendered_attrs_lookup.
  - apply (StronglySorted_NoDup_strict _ fst) in Hsorted.
    + eapply (StronglySorted_Forall_impl _ _ (λ _, True)); [| | exact Hsorted].
      * intros p q _ _ [Hle Hne]. apply tuple_lt_false_iff in Hle as [Hle _].
        by apply str_lt_true_iff.
      * by apply Forall_forall.
    + rewrite Hperm. apply NoDup_fst_map_to_list.
  - unfold tag. fold attrs'. cbv zeta.
    assert ((if decide (attrs' = ∅) then ""
             else join "" (format_attr <$> sorted_plain tuple_lt (map_to_list attrs')))
            = String.concat ""
                (format_attr <$> sorted_plain tuple_lt (map_to_list attrs'))) as ->.
    { destruct (decide (attrs' = ∅)) as [-> | _]; [| apply join_concat].
      by rewrite map_to_list_empty. }
    destruct content as [| c content]; [done |]. by rewrite join_concat.
Qed.

End string_facts.

(** C6. [tag] renders the attributes [attrs], with [cls] (when given)
    stored under the name ['class'], once each and in increasing order of
    their names, each as [ key="value"]; with no content the result is the
    single tag [<name ATTRS />], and with content it is one element
    [<name ATTRS>c</name>] per content string, joined by newlines. *)
Theorem tag_format (name : string) (content : list string)
    (cls : option string) (attrs : gmap string string) :
  ∃ items : list (string * string),
    (∀ k v, (k, v) ∈ items
            ↔ (k = "class" ∧ cls = Some v)
              ∨ ((k ≠ "class" ∨ cls = None) ∧ attrs !! k = Some v))
    ∧ StronglySorted (λ p q, builtins.str_lt p.1 q.1 = true) items
    ∧ tag name content cls attrs
      = let ATTRS :=
          String.concat ""
            ((λ kv, " " +:+ kv.1 +:+ "=" +:+ dquote +:+ kv.2 +:+ dquote) <$> items) in
        match content with
        | [] => "<" +:+ name +:+ ATTRS +:+ " />"
        | _ :: _ =>
            String.concat newline
              ((λ c, "<" +:+ name +:+ ATTRS +:+ ">" +:+ c +:+ "</" +:+ name +:+ ">")
                 <$> content)
        end.
Proof. apply tag_format_items. Qed.

(** The assertions of [test_arg_types] and of
    [test_partial_application_of_tag]. *)
Example tag_tests :
  tag "br" [] None ∅ = "<br />"
  ∧ tag "p" ["hello"] None ∅ = "<p>hello</p>"
  ∧ tag "p" ["hello"; "world"] None ∅
    = "<p>hello</p>" +:+ newline +:+ "<p>world</p>"
  ∧ tag "p" ["hello"] None {["id" := "33"]}
    = "<p id=" +:+ dquote +:+ "33" +:+ dquote +:+ ">hello</p>"
  ∧ tag "p" ["hello"; "world"] (Some "sidebar") ∅
    = "<p class=" +:+ dquote +:+ "sidebar" +:+ dquote +:+ ">hello</p>"
      +:+ newline
      +:+ "<p class=" +:+ dquote +:+ "sidebar" +:+ dquote +:+ ">world</p>"
  ∧ tag "img" [] None {["content" := "testing"]}
    = "<img content=" +:+ dquote +:+ "testing" +:+ dquote +:+ " />"
  ∧ tag "img" [] (Some "framed")
      (<["title" := "Sunset Boulevard"]> {["src" := "sunset.jpg"]})
    = "<img class=" +:+ dquote +:+ "framed" +:+ dquote
      +:+ " src=" +:+ dquote +:+ "sunset.jpg" +:+ dquote
      +:+ " title=" +:+ dquote +:+ "Sunset Boulevard" +:+ dquote +:+ " />"
  ∧ tag "img" [] (Some "pic-frame") {["src" := "wumpus.jpg"]}
    = "<img class=" +:+ dquote +:+ "pic-frame" +:+ dquote
      +:+ " src=" +:+ dquote +:+ "wumpus.jpg" +:+ dquote +:+ " />".
Proof. conjuncts; vm_compute; reflexivity. Qed.

(** * Further properties of the code *)

(** ** Vector: algebra of the operators *)

Section vector_algebra.
Import vector.

Lemma Vector_eq (u v : Vector) : x u = x v → y u = y v → u = v.
Proof. destruct u, v. simpl. by intros -> ->. Qed.

(** X1. Addition of vectors is commutative and associative, and
    [Vector()], built with both defaults, is neutral for it. *)
Theorem Vector_add_laws (u v w : Vector) :
  __add__ u v = __add__ v u
  ∧ __add__ (__add__ u v) w = __add__ u (__add__ v w)
  ∧ __add__ u (__init__ None None) = u
  ∧ __add__ (__init__ None None) u = u.
Proof. split_and!; apply Vector_eq; simpl; lia. Qed.

(** X2. Scaling distributes over the addition of vectors and over the
    addition of scalars, scaling twice scales by the product, scaling by 1
    changes nothing and scaling by 0 gives [Vector()]. *)
Theorem Vector_mul_laws (u v : Vector) (a b : Z) :
  __mul__ (__add__ u v) a = __add__ (__mul__ u a) (__mul__ v a)
  ∧ __mul__ u (a + b) = __add__ (__mul__ u a) (__mul__ u b)
  ∧ __mul__ (__mul__ u a) b = __mul__ u (a * b)
  ∧ __mul__ u 1 = u
  ∧ __mul__ u 0 = __init__ None None.
Proof. split_and!; apply Vector_eq; simpl; lia. Qed.

(** X3. A scaled vector is truthy exactly when the vector is truthy and
    the scalar is not zero. *)
Theorem Vector_bool_mul (v : Vector) (k : Z) :
  __bool__ (__mul__ v k) = __bool__ v && int_bool k.
Proof.
  unfold __bool__, int_or, int_bool. simpl.
  destruct (Z.eqb_spec (x v) 0) as [Hx | Hx], (Z.eqb_spec (y v) 0) as [Hy | Hy],
    (Z.eqb_spec k 0) as [Hk | Hk]; simpl;
    repeat match goal with
      | |- context [?a * ?b =? 0] => destruct (Z.eqb_spec (a * b) 0); simpl
      end; try done; nia.
Qed.

(** Digits are neither commas nor parentheses, so the decimal notation of
    an integer contains neither. *)
Lemma pretty_N_go_lacks (c : Ascii.ascii) (n : N) (s : string) :
  (∀ d, pretty_N_char d ≠ c) → lacks c s → lacks c (pretty_N_go n s).
Proof.
  intros Hc. revert s. induction (N.lt_wf_0 n) as [n _ IH]; intros s Hs.
  assert (n = 0 ∨ 0 < n)%N as [-> | Hn] by lia; [done |].
  rewrite pretty_N_go_step by done. apply IH; [by apply N.div_lt |].
  split; [apply Hc | done].
Qed.

Lemma pretty_Z_lacks (c : Ascii.ascii) (n : Z) :
  (∀ d, pretty_N_char d ≠ c) → c ≠ Ascii.ascii_of_nat 45 →
  lacks c (pretty n).
Proof.
  intros Hc Hdash. unfold pretty, pretty_Z, pretty, pretty_positive, pretty, pretty_N.
  destruct n as [| p | p].
  - split; [apply (Hc 0%N) | done].
  - case_decide; [done |]. by apply pretty_N_go_lacks.
  - case_decide; [done |]. split; [done |]. by apply pretty_N_go_lacks.
Qed.

(** A text is cut in one way only at the first occurrence of a character. *)
Lemma app_lacks_inj (c : Ascii.ascii) (a a' r r' : string) :
  lacks c a → lacks c a' →
  a +:+ String c r = a' +:+ String c r' → a = a' ∧ r = r'.
Proof.
  revert a'. induction a as [| b a IH]; intros [| b' a']; simpl.
  - intros _ _ Heq. by injection Heq.
  - intros _ [Hb' _] Heq. injection Heq as <- _. done.
  - intros [Hb _] _ Heq. injection Heq as -> _. done.
  - intros [_ Ha] [_ Ha'] Heq. injection Heq as -> Heq.
    destruct (IH a' Ha Ha' Heq) as [-> ->]. done.
Qed.

Lemma digit_not_comma (d : N) : pretty_N_char d ≠ Ascii.ascii_of_nat 44.
Proof. unfold pretty_N_char. by repeat case_match. Qed.

Lemma digit_not_paren (d : N) : pretty_N_char d ≠ Ascii.ascii_of_nat 41.
Proof. unfold pretty_N_char. by repeat case_match. Qed.

(** X4. [repr] tells vectors apart: two vectors with the same [repr] are
    equal. *)
Theorem Vector_repr_inj (u v : Vector) : __repr__ u = __repr__ v → u = v.
Proof.
  unfold __repr__. intros Heq.
  apply (inj (String.app "Vector(")) in Heq.
  apply (app_lacks_inj (Ascii.ascii_of_nat 44)) in Heq as [Hx Heq];
    [| by apply pretty_Z_lacks; [apply digit_not_comma |]..].
  injection Heq as Heq.
  apply (app_lacks_inj (Ascii.ascii_of_nat 41) _ _ "" "") in Heq as [Hy _];
    [| by apply pretty_Z_lacks; [apply digit_not_paren |]..].
  apply Vector_eq; by apply (inj pretty).
Qed.

Lemma Vector_repr_inj_witness : new 3 4 = new 3 4.
Proof. apply (Vector_repr_inj (new 3 4) (new 3 4)). reflexivity. Defined.

Example Vector_repr_docstring :
  __repr__ (__add__ (new 2 4) (new 2 1)) = "Vector(4, 5)"
  ∧ __repr__ (__mul__ (new 3 4) 3) = "Vector(9, 12)"
  ∧ __repr__ (new (-3) 0) = "Vector(-3, 0)".
Proof. by vm_compute. Qed.

End vector_algebra.

(** ** FrenchDeck: indexing, iteration, the sort key *)

Section french_deck_more.
Import builtins french_deck.

Lemma getitem_in_range {A} (l : list A) (i : Z) :
  - Z.of_nat (length l) ≤ i < Z.of_nat (length l) →
  ∃ a, getitem l i = Ok a
       ∧ l !! Z.to_nat (if decide (i < 0) then i + Z.of_nat (length l) else i)
         = Some a.
Proof.
  intros Hi. unfold getitem. cbv zeta.
  destruct (decide (i < 0)) as [Hneg | Hpos].
  - destruct (decide (0 ≤ i + Z.of_nat (length l))) as [_ | ?]; [| lia].
    destruct (lookup_lt_is_Some_2 l (Z.to_nat (i + Z.of_nat (length l))))
      as [a Ha]; [lia |].
    exists a. by rewrite Ha.
  - destruct (decide (0 ≤ i)) as [_ | ?]; [| lia].
    destruct (lookup_lt_is_Some_2 l (Z.to_nat i)) as [a Ha]; [lia |].
    exists a. by rewrite Ha.
Qed.

Lemma getitem_out_of_range {A} (l : list A) (i : Z) :
  i < - Z.of_nat (length l) ∨ Z.of_nat (length l) ≤ i →
  getitem l i = Raise IndexError.
Proof.
  intros Hi. unfold getitem. cbv zeta.
  destruct (decide (i < 0)) as [Hneg | Hpos].
  - destruct (decide (0 ≤ i + Z.of_nat (length l))) as [? | _]; [lia | done].
  - destruct (decide (0 ≤ i)) as [_ | ?]; [| lia].
    rewrite lookup_ge_None_2 by lia. done.
Qed.

Lemma getitem_negative {A} (l : list A) (i : Z) :
  - Z.of_nat (length l) ≤ i < 0 → getitem l i = getitem l (i + Z.of_nat (length l)).
Proof.
  intros Hi. unfold getitem. cbv zeta.
  destruct (decide (i < 0)) as [_ | ?]; [| lia].
  destruct (decide (i + Z.of_nat (length l) < 0)) as [? | _]; [lia |]. done.
Qed.

(** X5. Indexing a deck: every position from [-len] to [len - 1] yields a
    card of the deck, every other position raises [IndexError], and a
    negative position [p] names the same card as [p + len]. *)
Theorem FrenchDeck_getitem_range (self : FrenchDeck) (position : Z) :
  (- __len__ self ≤ position < __len__ self →
     ∃ c, __getitem__ self position = Ok c ∧ c ∈ _cards self)
  ∧ (position < - __len__ self ∨ __len__ self ≤ position →
       __getitem__ self position = Raise IndexError)
  ∧ (- __len__ self ≤ position < 0 →
       __getitem__ self position = __getitem__ self (position + __len__ self)).
Proof.
  unfold __getitem__, __len__. split; [| split].
  - intros Hp. destruct (getitem_in_range _ _ Hp) as (c & Hc & Hl).
    exists c. split; [exact Hc |]. by eapply list_elem_of_lookup_2.
  - apply getitem_out_of_range.
  - apply getitem_negative.
Qed.

Lemma FrenchDeck_getitem_range_witness :
  __getitem__ __init__ (-1) = __getitem__ __init__ (-1 + __len__ __init__).
Proof.
  apply (proj2 (proj2 (FrenchDeck_getitem_range __init__ (-1)))).
  split; vm_compute; [discriminate | reflexivity].
Defined.

Lemma iter_from_enough (cards pre : list Card) (fuel : nat) :
  (length cards < fuel)%nat →
  iter_from (mkDeck (pre ++ cards)) fuel (Z.of_nat (length pre)) = Ok cards.
Proof.
  revert pre fuel. induction cards as [| c cards IH]; intros pre fuel Hfuel;
    (destruct fuel as [| fuel]; [simpl in Hfuel; lia |]);
    change (iter_from ?d (S ?f) ?i) with
      (match __getitem__ d i with
       | Ok c => l ← iter_from d f (i + 1); Ok (c :: l)
       | Raise IndexError => Ok []
       | Raise e => Raise e
       end);
    unfold __getitem__ at 1; cbn [_cards]; rewrite getitem_of_nat.
  - rewrite app_nil_r, lookup_ge_None_2; done.
  - rewrite list_lookup_middle by done.
    specialize (IH (pre ++ [c]) fuel).
    rewrite <-app_assoc, length_app in IH. cbn [app length] in IH.
    replace (Z.of_nat (length pre) + 1) with (Z.of_nat (length pre + 1)) by lia.
    rewrite IH; [done |]. simpl in Hfuel. lia.
Qed.

(** X6. A deck can be iterated although it has no [__iter__]: reading
    positions 0, 1, 2, ... through [__getitem__] until [IndexError] yields
    every card once, in order; the loop ends by that error, however many
    reads it is allowed beyond [len]. *)
Theorem FrenchDeck_iter (self : FrenchDeck) (fuel : nat) :
  (length (_cards self) < fuel)%nat →
  iter_from self fuel 0 = Ok (_cards self)
  ∧ iter self = Ok (_cards self)
  ∧ __getitem__ self (__len__ self) = Raise IndexError.
Proof.
  intros Hfuel. destruct self as [cards]. split; [| split].
  - by apply (iter_from_enough cards []).
  - apply (iter_from_enough cards []). simpl. lia.
  - unfold __getitem__, __len__. apply getitem_out_of_range. lia.
Qed.

Lemma FrenchDeck_iter_witness :
  iter_from __init__ 60 0 = Ok (_cards __init__).
Proof.
  apply (FrenchDeck_iter __init__ 60). vm_compute. lia.
Defined.

(** [l.index(v)] finds the first position of [v], and raises [ValueError]
    exactly when [v] is not in [l]. *)
Lemma index_spec (l : list string) (v : string) :
  match index l v with
  | Ok i =>
      0 ≤ i < Z.of_nat (length l) ∧ l !! Z.to_nat i = Some v
      ∧ ∀ j, (j < Z.to_nat i)%nat → l !! j ≠ Some v
  | Raise e => e = ValueError ∧ v ∉ l
  end.
Proof.
  induction l as [| a l IH]; simpl.
  - split; [done | apply not_elem_of_nil].
  - destruct (decide (a = v)) as [-> | Hne].
    + split; [lia |]. split; [done |]. intros j Hj. simpl in Hj. lia.
    + destruct (index l v) as [i | e]; simpl.
      * destruct IH as (Hi & Hl & Hfirst). split; [lia |].
        replace (Z.to_nat (i + 1)) with (S (Z.to_nat i)) by lia.
        split; [done |]. intros [| j] Hj; simpl; [congruence |].
        apply Hfirst. lia.
      * destruct IH as [-> Hnotin]. split; [done |].
        by apply not_elem_of_cons.
Qed.

Lemma length_ranks : length ranks = 13%nat.
Proof. vm_compute. reflexivity. Qed.

Lemma map_to_list_suit_values (s : string) (v : Z) :
  suit_values !! s = Some v →
  (s, v) ∈ [("spades", 3); ("hearts", 2); ("diamonds", 1); ("clubs", 0)].
Proof.
  unfold suit_values. intros Hs. by apply elem_of_list_to_map_2 in Hs.
Qed.

Lemma sorting_cases (self : FrenchDeck) (card : Card) :
  (rank card ∉ ranks → sorting self card = Raise ValueError)
  ∧ (rank card ∈ ranks → suit_values !! suit card = None →
       sorting self card = Raise (KeyError (suit card)))
  ∧ (rank card ∈ ranks → is_Some (suit_values !! suit card) →
       ∃ k, sorting self card = Ok k ∧ 0 ≤ k < 52).
Proof.
  unfold sorting, dict_getitem.
  pose proof (index_spec ranks (rank card)) as Hidx.
  destruct (index ranks (rank card)) as [i | e]; simpl.
  - destruct Hidx as (Hi & Hl & _). rewrite length_ranks in Hi.
    split; [| split].
    + intros Hnotin. exfalso. apply Hnotin. by eapply list_elem_of_lookup_2.
    + intros _ ->. reflexivity.
    + intros _ [v Hv]. rewrite Hv. simpl. eexists. split; [reflexivity |].
      rewrite size_suit_values. apply map_to_list_suit_values in Hv.
      repeat (apply elem_of_cons in Hv as [Hv | Hv]; [injection Hv as _ ->; lia |]).
      by apply elem_of_nil in Hv.
  - destruct Hidx as [-> Hnotin]. split; [reflexivity |].
    split; intros Hin; contradiction.
Qed.


(** X7. The sort key of a card: a rank that is not one of the 13 raises
    [ValueError], also when the suit is unknown too; a known rank with an
    unknown suit raises [KeyError] for that suit; a known rank and suit
    give a key from 0 to 51. *)
Theorem sorting_outcomes (self : FrenchDeck) (card : Card) :
  (rank card ∉ ranks → sorting self card = Raise ValueError)
  ∧ (rank card ∈ ranks → suit_values !! suit card = None →
       sorting self card = Raise (KeyError (suit card)))
  ∧ (rank card ∈ ranks → is_Some (suit_values !! suit card) →
       ∃ k, sorting self card = Ok k ∧ 0 ≤ k < 52).
Proof. apply sorting_cases. Qed.

Lemma sorting_outcomes_witness :
  sorting __init__ (mkCard "1" "stars") = Raise ValueError
  ∧ sorting __init__ (mkCard "Q" "stars") = Raise (KeyError "stars").
Proof.
  split.
  - apply (proj1 (sorting_outcomes __init__ (mkCard "1" "stars"))).
    vm_compute. intros Hin.
    repeat (apply elem_of_cons in Hin as [Hin | Hin]; [discriminate Hin |]).
    by apply elem_of_nil in Hin.
  - apply (proj1 (proj2 (sorting_outcomes __init__ (mkCard "Q" "stars")))).
    + apply (bool_decide_unpack _). vm_compute. exact I.
    + vm_compute. reflexivity.
Defined.

Lemma NoDup_ranks : NoDup ranks.
Proof. apply (bool_decide_unpack _). vm_compute. exact I. Qed.

(** In a list without repetition, [index] inverts the lookup. *)
Lemma index_lookup (l : list string) (v : string) (i : nat) :
  NoDup l → l !! i = Some v → index l v = Ok (Z.of_nat i).
Proof.
  intros Hnd Hi. pose proof (index_spec l v) as Hidx.
  destruct (index l v) as [i' | e].
  - destruct Hidx as (Hi' & Hl & _).
    rewrite <-(NoDup_lookup l _ _ v Hnd Hl Hi). f_equal. lia.
  - destruct Hidx as [_ Hnotin]. exfalso. apply Hnotin.
    by eapply list_elem_of_lookup_2.
Qed.

(** [suit_values] gives different suits different values, from 0 to 3. *)
Lemma suit_values_inj (s s' : string) (v : Z) :
  suit_values !! s = Some v → suit_values !! s' = Some v → s = s'.
Proof.
  intros Hs%map_to_list_suit_values Hs'%map_to_list_suit_values.
  rewrite !elem_of_cons, elem_of_nil in Hs, Hs'.
  destruct Hs as [Hs | [Hs | [Hs | [Hs | []]]]],
    Hs' as [Hs' | [Hs' | [Hs' | [Hs' | []]]]]; congruence.
Qed.

Lemma suit_values_range (s : string) (v : Z) :
  suit_values !! s = Some v → 0 ≤ v < 4.
Proof.
  intros Hs%map_to_list_suit_values.
  repeat (apply elem_of_cons in Hs as [Hs | Hs]; [injection Hs as _ ->; lia |]).
  by apply elem_of_nil in Hs.
Qed.

Lemma sorting_decode (self : FrenchDeck) (c : Card) (k : Z) :
  sorting self c = Ok k
  ↔ 0 ≤ k ∧ ranks !! Z.to_nat (k `div` 4) = Some (rank c)
    ∧ suit_values !! suit c = Some (k `mod` 4).
Proof.
  unfold sorting, dict_getitem. rewrite size_suit_values. split.
  - pose proof (index_spec ranks (rank c)) as Hidx.
    destruct (index ranks (rank c)) as [i | e]; simpl; [| discriminate].
    destruct Hidx as (Hi & Hl & _).
    destruct (suit_values !! suit c) as [v |] eqn:Hv; simpl; [| discriminate].
    intros [= <-]. apply suit_values_range in Hv.
    replace ((i * Z.of_nat 4 + v) `div` 4) with i
      by (apply (Z.div_unique _ 4 i v); lia).
    replace ((i * Z.of_nat 4 + v) `mod` 4) with v
      by (apply (Z.mod_unique _ 4 i v); lia).
    split; [lia |]. split; [exact Hl | reflexivity].
  - intros (Hk & Hr & Hs).
    rewrite (index_lookup ranks (rank c) _ NoDup_ranks Hr), Hs. simpl.
    f_equal. rewrite Z2Nat.id by (apply Z.div_pos; lia).
    pose proof (Z.div_mod k 4). lia.
Qed.

(** X8. The sort key identifies the card: [sorting(card) = k] holds
    exactly when [k >= 0], the rank of the card stands at position
    [k // 4] of [ranks], counted from the front, and [suit_values] gives
    its suit the value [k % 4]; so two cards with the same key are the same
    card. *)
Theorem sorting_key_decodes (self : FrenchDeck) (c d : Card) (k : Z) :
  (sorting self c = Ok k
   ↔ 0 ≤ k ∧ ranks !! Z.to_nat (k `div` 4) = Some (rank c)
     ∧ suit_values !! suit c = Some (k `mod` 4))
  ∧ (sorting self c = Ok k → sorting self d = Ok k → c = d).
Proof.
  split; [apply sorting_decode |].
  intros (_ & Hrc & Hsc)%sorting_decode (_ & Hrd & Hsd)%sorting_decode.
  destruct c as [rc sc], d as [rd sd]. simpl in *.
  f_equal; [congruence |]. by eapply suit_values_inj.
Qed.

Lemma sorting_key_decodes_witness :
  sorting __init__ (mkCard "A" "spades") = Ok 51.
Proof.
  apply (proj2 (proj1 (sorting_key_decodes __init__ (mkCard "A" "spades")
                         (mkCard "A" "spades") 51))).
  split; [lia |]. split; vm_compute; reflexivity.
Defined.

(** A comprehension over [l] succeeds exactly when its body does on every
    item, and otherwise raises what the first failing item raises. *)
Lemma map_result_Ok_iff {A B} (f : A → result B) (l : list A) :
  (∃ bs, map_result f l = Ok bs) ↔ Forall (λ a, ∃ b, f a = Ok b) l.
Proof.
  induction l as [| a l IH]; simpl.
  - split; [constructor | by exists []].
  - rewrite Forall_cons, <-IH. destruct (f a) as [b | e]; simpl.
    + destruct (map_result f l) as [bs | e]; simpl.
      * split; [intros _; eauto | intros _; eauto].
      * split; [intros [? [=]] | intros [_ [? [=]]]].
    + split; [intros [? [=]] | intros [[? [=]] _]].
Qed.

Lemma map_result_first_error {A B} (f : A → result B) (pre post : list A)
    (a : A) (e : exn) :
  Forall (λ a, ∃ b, f a = Ok b) pre → f a = Raise e →
  map_result f (pre ++ a :: post) = Raise e.
Proof.
  intros Hpre Ha. induction Hpre as [| a' pre [b Hb] _ IH]; simpl.
  - by rewrite Ha.
  - by rewrite Hb, IH.
Qed.

Lemma sorting_Ok_iff (self : FrenchDeck) (c : Card) :
  (∃ k, sorting self c = Ok k)
  ↔ rank c ∈ ranks ∧ is_Some (suit_values !! suit c).
Proof.
  destruct (sorting_cases self c) as (Hbad & Hkey & Hok). split.
  - intros [k Hk]. destruct (decide (rank c ∈ ranks)) as [Hin | Hnotin].
    + split; [exact Hin |].
      destruct (suit_values !! suit c) as [v |] eqn:Hv; [by eexists |].
      rewrite (Hkey Hin eq_refl) in Hk. discriminate.
    + rewrite (Hbad Hnotin) in Hk. discriminate.
  - intros [Hin Hsome]. destruct (Hok Hin Hsome) as (k & Hk & _). by exists k.
Qed.

Lemma decorate_Ok_iff {A K} (key : A → result K) (a : A) :
  (∃ p, (k ← key a; Ok (k, a)) = Ok p) ↔ ∃ k, key a = Ok k.
Proof.
  destruct (key a) as [k | e]; simpl.
  - split; intros _; eauto.
  - split; intros [? [=]].
Qed.

(** X9. [sorted()] on any deck that it can sort returns the cards of the
    deck, each as often as the deck holds it, in an order in which the sort
    key never decreases. *)
Theorem FrenchDeck_sorted_any (self : FrenchDeck) (l : list Card) :
  sorted self = Ok l →
  l ≡ₚ _cards self
  ∧ StronglySorted
      (λ c d, ∃ kc kd,
         sorting self c = Ok kc ∧ sorting self d = Ok kd ∧ kc ≤ kd) l.
Proof.
  unfold sorted. rewrite iter_cards. simpl. intros Hs.
  destruct (sorted_spec Z.ltb Zltb_asym Zltb_key_le_trans _ _ _ Hs)
    as [Hperm Hsorted].
  split; [exact Hperm |].
  eapply (StronglySorted_Forall_impl _ _ (λ _, True)); [| | exact Hsorted].
  - intros c d _ _ (kc & kd & Hc & Hd & Hle). exists kc, kd.
    rewrite Z.ltb_ge in Hle. repeat split; assumption.
  - apply Forall_forall. intros; exact I.
Qed.

Lemma FrenchDeck_sorted_any_witness :
  [mkCard "2" "hearts"; mkCard "3" "clubs"; mkCard "3" "clubs"]
  ≡ₚ [mkCard "3" "clubs"; mkCard "2" "hearts"; mkCard "3" "clubs"].
Proof.
  apply (FrenchDeck_sorted_any
           (mkDeck [mkCard "3" "clubs"; mkCard "2" "hearts"; mkCard "3" "clubs"])
           [mkCard "2" "hearts"; mkCard "3" "clubs"; mkCard "3" "clubs"]).
  vm_compute. reflexivity.
Defined.

(** X10. [sorted()] succeeds exactly on the decks whose cards all have a
    known rank and suit; on any other deck it raises what [sorting] raises
    for the first such card, in deck order. *)
Theorem FrenchDeck_sorted_raises (self : FrenchDeck) :
  ((∃ l, sorted self = Ok l)
   ↔ Forall (λ c, rank c ∈ ranks ∧ is_Some (suit_values !! suit c)) (_cards self))
  ∧ (∀ pre c post e,
       _cards self = pre ++ c :: post →
       Forall (λ c, rank c ∈ ranks ∧ is_Some (suit_values !! suit c)) pre →
       sorting self c = Raise e →
       sorted self = Raise e).
Proof.
  unfold sorted, builtins.sorted. rewrite iter_cards. simpl. split.
  - rewrite (Forall_iff _ _ _ (λ c, symmetry (sorting_Ok_iff self c))).
    rewrite (Forall_iff _ _ _ (λ c, symmetry (decorate_Ok_iff (sorting self) c))).
    rewrite <-map_result_Ok_iff.
    destruct (map_result _ (_cards self)) as [ks | e]; simpl.
    + split; intros _; eauto.
    + split; intros [? [=]].
  - intros pre c post e -> Hpre Hc.
    rewrite (map_result_first_error _ pre post c e); [reflexivity | |].
    + eapply Forall_impl; [exact Hpre |]. intros d Hd.
      apply decorate_Ok_iff, sorting_Ok_iff, Hd.
    + by rewrite Hc.
Qed.

Lemma FrenchDeck_sorted_raises_witness :
  sorted (mkDeck [mkCard "2" "hearts"; mkCard "Q" "stars"; mkCard "1" "clubs"])
  = Raise (KeyError "stars").
Proof.
  apply (proj2 (FrenchDeck_sorted_raises
                  (mkDeck [mkCard "2" "hearts"; mkCard "Q" "stars"; mkCard "1" "clubs"]))
           [mkCard "2" "hearts"] (mkCard "Q" "stars") [mkCard "1" "clubs"]).
  - reflexivity.
  - apply (bool_decide_unpack _). vm_compute. exact I.
  - vm_compute. reflexivity.
Defined.

End french_deck_more.

(** ** sorted with a key: stability *)

Section sorted_stable.
Import builtins.
Context {A K : Type} `{EqDecision K} (lt : K → K → bool).
Hypothesis lt_irrefl : ∀ a, lt a a = false.

(** Inserting an item does not move it past an item with the same key. *)
Lemma insort_filter (k : K) (x : K * A) (l : list (K * A)) :
  filter (λ p, p.1 = k) (insort lt x l) = filter (λ p, p.1 = k) (x :: l).
Proof.
  induction l as [| y l IH]; simpl; [done |].
  destruct (lt y.1 x.1) eqn:Hlt; [| done].
  rewrite (filter_cons _ y), IH, !(filter_cons _ x), (filter_cons _ y).
  destruct (decide (x.1 = k)) as [Hx | Hx], (decide (y.1 = k)) as [Hy | Hy];
    try done.
  rewrite Hx, Hy, lt_irrefl in Hlt. discriminate.
Qed.

Lemma sort_keyed_filter (k : K) (l : list (K * A)) :
  filter (λ p, p.1 = k) (sort_keyed lt l) = filter (λ p, p.1 = k) l.
Proof.
  induction l as [| x l IH]; simpl; [done |].
  by rewrite insort_filter, !filter_cons, IH.
Qed.

Lemma filter_decorated (g : A → K) (k : K) (ks : list (K * A)) :
  Forall (λ p, g p.2 = p.1) ks →
  filter (λ a, g a = k) ks.*2 = (filter (λ p, p.1 = k) ks).*2.
Proof.
  induction 1 as [| [k' a] ks Hp _ IH]; [done |]. simpl in Hp.
  rewrite fmap_cons, !filter_cons, IH. simpl.
  destruct (decide (g a = k)), (decide (k' = k)); (done || congruence).
Qed.

Lemma map_result_total {B C} (g : B → C) (l : list B) :
  map_result (λ b, Ok (g b)) l = Ok (g <$> l).
Proof. induction l as [| b l IH]; [done |]. simpl. by rewrite IH. Qed.

(** Sorting by a key that cannot raise. *)
Lemma sorted_total_key (g : A → K) (l : list A) :
  sorted lt (λ a, Ok (g a)) l = Ok (sort_keyed lt ((λ a, (g a, a)) <$> l)).*2.
Proof.
  unfold sorted.
  change (λ a, k ← Ok (g a); Ok (k, a)) with (λ a, @Ok (K * A) (g a, a)).
  by rewrite map_result_total.
Qed.

Lemma sorted_stable (g : A → K) (l : list A) (k : K) :
  filter (λ a, g a = k) (sort_keyed lt ((λ a, (g a, a)) <$> l)).*2
  = filter (λ a, g a = k) l.
Proof.
  rewrite (filter_decorated g).
  - rewrite sort_keyed_filter, <-(filter_decorated g).
    + by rewrite <-list_fmap_compose, list_fmap_id.
    + apply Forall_fmap, Forall_forall. by intros.
  - rewrite sort_keyed_Permutation. apply Forall_fmap, Forall_forall. by intros.
Qed.

End sorted_stable.

(** X11. [sorted(words, key=len)] returns the words rearranged by length,
    shortest first, and words of the same length stay in the order they
    had in [words]. *)
Theorem sorted_by_len (words : list string) :
  ∃ l, builtins.sorted Z.ltb (λ w, Ok (test_sorted.len w)) words = Ok l
       ∧ l ≡ₚ words
       ∧ StronglySorted (λ a b, test_sorted.len a ≤ test_sorted.len b) l
       ∧ ∀ n, filter (λ w, test_sorted.len w = n) l = filter (λ w, test_sorted.len w = n) words.
Proof.
  eexists. split; [apply sorted_total_key |].
  destruct (sorted_spec Z.ltb Zltb_asym Zltb_key_le_trans (λ w, Ok (test_sorted.len w))
              words _ (sorted_total_key Z.ltb test_sorted.len words)) as [Hperm Hsorted].
  split; [exact Hperm |]. split.
  - eapply (StronglySorted_Forall_impl _ _ (λ _, True)); [| | exact Hsorted].
    + intros a b _ _ (ka & kb & [= <-] & [= <-] & Hle). by apply Z.ltb_ge.
    + apply Forall_forall. by intros.
  - intros n. apply sorted_stable. apply Z.ltb_irrefl.
Qed.

(** The two assertions of [test_sorted], and a list with a word outside
    ASCII. *)
Example test_sorted_fruits :
  let fruits := ["strawberry"; "fig"; "apple"; "cherry"; "raspberry"; "banana"] in
  builtins.sorted Z.ltb (λ w, Ok (test_sorted.len w)) fruits
  = Ok ["fig"; "apple"; "cherry"; "banana"; "raspberry"; "strawberry"]
  ∧ builtins.sorted test_sorted.codes_lt (λ w, Ok (test_sorted.reverse w)) fruits
    = Ok ["banana"; "apple"; "fig"; "raspberry"; "strawberry"; "cherry"]
  ∧ builtins.sorted Z.ltb (λ w, Ok (test_sorted.len w)) ["zzzzz"; "café"; "abc"]
    = Ok ["abc"; "café"; "zzzzz"].
Proof. by vm_compute. Qed.

(** ** BingoCage: draining the cage *)

Section BingoCage_more.
Import builtins random BingoCage.

Lemma pick_many_items (n : nat) (l : list Z) :
  pick_many n (mk l)
  = (Ok <$> take n (reverse l))
    ++ replicate (n - length l) (Raise (LookupError "pick from empty BingoCage")).
Proof.
  revert l. induction n as [| n IH]; intros l; [done |].
  destruct l as [| a l _] using rev_ind.
  - cbn [pick_many]. rewrite (pick_empty (mk [])) by done. cbn [fst snd].
    rewrite IH, reverse_nil, !take_nil. simpl. by rewrite Nat.sub_0_r.
  - cbn [pick_many]. rewrite (pick_snoc (mk (l ++ [a])) l a) by done.
    cbn [fst snd]. rewrite IH, reverse_snoc, length_app. simpl.
    do 3 f_equal. lia.
Qed.

(** X12. A cage built from [items] serves exactly [len(items)] picks:
    they return the items, each as often as it was put in, in some order;
    every pick after them raises
    [LookupError('pick from empty BingoCage')]. *)
Theorem BingoCage_drains (rng : nat → nat) (items : list Z) (n : nat) :
  ∃ picked : list Z,
    picked ≡ₚ items
    ∧ pick_many (length items + n) (__init__ rng items)
      = (Ok <$> picked)
        ++ replicate n (Raise (LookupError "pick from empty BingoCage")).
Proof.
  exists (reverse (shuffle rng items)). split.
  - by rewrite reverse_Permutation, shuffle_Permutation.
  - unfold __init__. rewrite pick_many_items.
    rewrite (Permutation_length (shuffle_Permutation rng items)).
    rewrite take_ge by (rewrite length_reverse,
      (Permutation_length (shuffle_Permutation rng items)); lia).
    do 2 f_equal. lia.
Qed.

End BingoCage_more.

(** ** factorial: call depth, and the versions built on reduce *)

(** X13. [factorial(n)] makes [max(1, n)] nested calls: it returns [n!]
    when that many are allowed and runs out of stack when fewer are. *)
Theorem factorial_depth (limit : nat) (n : Z) :
  factorial_within limit n
  = if decide (Z.to_nat (Z.max 1 n) ≤ limit)%nat then Some (factorial n) else None.
Proof.
  case_decide.
  - by apply factorial_within_enough.
  - apply factorial_within_short. lia.
Qed.

Lemma foldl_mul_seqZ (k : nat) :
  foldl Z.mul 1 (seqZ 2 (Z.of_nat k)) = factorial (Z.of_nat (S k)).
Proof.
  induction k as [| k IH]; [done |].
  rewrite seqZ_S, foldl_snoc, IH.
  rewrite (factorial_step (Z.of_nat (S (S k)))) by lia.
  replace (Z.of_nat (S (S k)) - 1) with (Z.of_nat (S k)) by lia. lia.
Qed.

Lemma reduce_mul_range (n : Z) :
  reduce Z.mul (builtins.range 1 (n + 1))
  = if decide (1 ≤ n) then inr (factorial n)
    else inl (TypeError "reduce() of empty sequence with no initial value").
Proof.
  unfold builtins.range. replace (n + 1 - 1) with n by lia. case_decide.
  - rewrite seqZ_cons by lia. simpl.
    replace (Z.pred n) with (Z.of_nat (Z.to_nat (n - 1))) by lia.
    rewrite foldl_mul_seqZ. do 2 f_equal. lia.
  - by rewrite seqZ_nil by lia.
Qed.

(** X14. The versions of the factorial built on [reduce], [fact] and
    [ugly_fact], agree with [factorial] from 1 on; below 1 they raise
    [TypeError], because they reduce an empty range without an initial
    value, where [factorial] returns 1. *)
Theorem fact_reduce (n : Z) :
  (1 ≤ n → fact n = inr (factorial n) ∧ ugly_fact n = inr (factorial n))
  ∧ (n < 1 →
       fact n = inl (TypeError "reduce() of empty sequence with no initial value")
       ∧ ugly_fact n = fact n
       ∧ factorial n = 1).
Proof.
  unfold ugly_fact, fact.
  change (λ a b : Z, a * b) with Z.mul. rewrite reduce_mul_range.
  split; intros Hn.
  - by rewrite decide_True.
  - rewrite decide_False by lia. split_and!; [done.. |].
    apply factorial_small. lia.
Qed.

Lemma fact_reduce_witness :
  fact 42 = inr (factorial 42) ∧ fact 0 = inl (TypeError "reduce() of empty sequence with no initial value").
Proof.
  split.
  - apply (proj1 (fact_reduce 42)). lia.
  - apply (proj2 (fact_reduce 0)). lia.
Defined.

(** ** clip *)

Section clip_facts.
Import unicode text.

Lemma rstrip_prefix (s : list Z) : rstrip s `prefix_of` s.
Proof.
  induction s as [| a s IH]; simpl; [done |].
  destruct (rstrip s) as [| b r].
  - destruct (isspace a); [apply prefix_nil | apply prefix_cons, prefix_nil].
  - by apply prefix_cons.
Qed.

Lemma rstrip_last (s : list Z) (c : Z) :
  last (rstrip s) = Some c → isspace c = false.
Proof.
  induction s as [| a s IH]; simpl; [done |].
  destruct (rstrip s) as [| b r].
  - destruct (isspace a) eqn:Ha; simpl; [done | congruence].
  - rewrite last_cons_cons. exact IH.
Qed.

(** A text that does not end in white space is left as it is. *)
Lemma rstrip_id (s : list Z) :
  (∀ c, last s = Some c → isspace c = false) → rstrip s = s.
Proof.
  induction s as [| a s IH]; simpl; [done |]. intros Hlast.
  destruct s as [| b s].
  - simpl. by rewrite (Hlast a).
  - rewrite IH; [done |]. intros c Hc. apply Hlast. by rewrite last_cons_cons.
Qed.

Lemma slice_bound_le (n : nat) (i : Z) : (slice_bound n i ≤ n)%nat.
Proof. unfold slice_bound. case_decide; lia. Qed.

Lemma slice_bound_in_range (n : nat) (i : Z) :
  0 ≤ i ≤ Z.of_nat n → slice_bound n i = Z.to_nat i.
Proof. intros Hi. unfold slice_bound. rewrite decide_False by lia. lia. Qed.

(** The scan returns the last position in range that holds [c], or the
    value it started with when there is none. *)
Lemma rfind_go_spec (c : Z) (s : list Z) (i lo hi : nat)
    (found : Z) :
  (rfind_go c s i lo hi found = found
   ∧ ∀ j, s !! j = Some c → ¬ (lo ≤ i + j < hi)%nat)
  ∨ (∃ j, rfind_go c s i lo hi found = Z.of_nat (i + j)
          ∧ s !! j = Some c ∧ (lo ≤ i + j < hi)%nat
          ∧ ∀ j', (j < j')%nat → s !! j' = Some c → ¬ (lo ≤ i + j' < hi)%nat).
Proof.
  revert i found. induction s as [| a s IH]; intros i found; simpl.
  - left. split; [done |]. intros j Hj. by rewrite lookup_nil in Hj.
  - destruct (IH (S i)
                (if decide ((lo ≤ i < hi)%nat ∧ a = c) then Z.of_nat i else found))
      as [[Hr Hnone] | (j & Hr & Hj & Hrange & Hlast)].
    + destruct (decide ((lo ≤ i < hi)%nat ∧ a = c)) as [[Hi ->] | Hno].
      * right. exists 0%nat. rewrite Hr, Nat.add_0_r.
        split; [done |]. split; [done |]. split; [lia |].
        intros [| j'] Hj' Hc; [lia |]. simpl in Hc.
        intros Hin. apply (Hnone j' Hc). lia.
      * left. split; [done |]. intros [| j] Hc; simpl in Hc.
        -- injection Hc as ->. intros Hin. apply Hno. split; [lia | done].
        -- intros Hin. apply (Hnone j Hc). lia.
    + right. exists (S j). rewrite Hr.
      split; [f_equal; lia |]. split; [done |]. split; [lia |].
      intros [| j'] Hj' Hc; [lia |]. simpl in Hc.
      intros Hin. apply (Hlast j'); [lia | done | lia].
Qed.

(** [s.rfind(c, start, end)]: -1 when [c] is not in [s[start:end]], else
    the last position in that range that holds [c]. *)
Lemma rfind_spec (s : list Z) (c : Z) (start : Z)
    (end_ : option Z) :
  let lo := slice_bound (length s) start in
  let hi := from_option (slice_bound (length s)) (length s) end_ in
  (rfind s c start end_ = -1
   ∧ ∀ j, s !! j = Some c → ¬ (lo ≤ j < hi)%nat)
  ∨ (∃ j, rfind s c start end_ = Z.of_nat j
          ∧ s !! j = Some c ∧ (lo ≤ j < hi)%nat
          ∧ ∀ j', (j < j')%nat → s !! j' = Some c → ¬ (lo ≤ j' < hi)%nat).
Proof.
  intros lo hi. unfold rfind. fold lo hi.
  destruct (rfind_go_spec c s 0 lo hi (-1)) as [H | H]; [left | right]; exact H.
Qed.

(** Where [clip] cuts: at the last space before [max_len] when the text is
    longer than [max_len] and has one, else at the last space of the rest,
    else nowhere. *)
Lemma clip_cut (text : list Z) (max_len : Z) :
  ∃ cut : nat,
    clip text max_len = rstrip (take cut text)
    ∧ (Z.of_nat (length text) ≤ max_len → cut = length text)
    ∧ (0 ≤ max_len < Z.of_nat (length text) →
       (∀ j, text !! j = Some space → (Z.of_nat j < max_len) →
          (cut < Z.to_nat max_len)%nat ∧ (j ≤ cut)%nat ∧ text !! cut = Some space)
       ∧ ((∀ j, text !! j = Some space → ¬ Z.of_nat j < max_len) →
          (∀ j, text !! j = Some space → (j ≤ cut)%nat ∧ text !! cut = Some space)
          ∧ ((∀ j, text !! j ≠ Some space) → cut = length text))).
Proof.
  unfold clip. cbv zeta.
  destruct (decide (Z.of_nat (length text) > max_len)) as [Hlong | Hshort].
  2: { exists (length text). simpl.
       rewrite slice_bound_in_range, Nat2Z.id by lia.
       split; [done |]. split; [done | lia]. }
  destruct (rfind_spec text space 0 (Some max_len))
    as [[Hb Hnone] | (j & Hb & Hj & Hrange & Hlast)]; rewrite Hb;
    cbn [from_option] in *.
  - destruct (decide (-1 >= 0)) as [? | _]; [lia |].
    destruct (rfind_spec text space max_len None)
      as [[Ha Hnone'] | (j & Ha & Hj & Hrange & Hlast)]; rewrite Ha;
      cbn [from_option] in *.
    + destruct (decide (-1 >= 0)) as [? | _]; [lia |]. cbn [default from_option id].
      rewrite slice_bound_in_range, Nat2Z.id by lia.
      exists (length text). split; [done |]. split; [done |].
      intros Hm. rewrite (slice_bound_in_range _ max_len) in Hnone, Hnone' by lia.
      rewrite (slice_bound_in_range _ 0) in Hnone by lia.
      assert (∀ j, text !! j ≠ Some space) as Hno.
      { intros j Hj. pose proof (lookup_lt_Some _ _ _ Hj).
        destruct (decide (j < Z.to_nat max_len)%nat).
        - apply (Hnone j Hj). lia.
        - apply (Hnone' j Hj). lia. }
      split; [intros j Hj; by destruct (Hno j) |].
      intros _. split; [intros j Hj; by destruct (Hno j) | done].
    + destruct (decide (Z.of_nat j >= 0)) as [_ | ?]; [| lia]. cbn [default from_option id].
      pose proof (lookup_lt_Some _ _ _ Hj) as Hjlen.
      rewrite slice_bound_in_range, Nat2Z.id by lia.
      exists j. split; [done |]. split; [lia |].
      intros Hm.
      rewrite (slice_bound_in_range _ max_len) in Hnone, Hrange, Hlast by lia.
      rewrite (slice_bound_in_range _ 0) in Hnone by lia.
      split.
      { intros j' Hj' Hlt. destruct (Hnone j' Hj'). lia. }
      intros Hnot. split.
      * intros j' Hj'. split; [| done].
        destruct (decide (j' ≤ j)%nat) as [? | Hgt]; [done |].
        pose proof (lookup_lt_Some _ _ _ Hj').
        destruct (Hlast j'); [lia | done |].
        split; [| lia]. specialize (Hnot j' Hj'). lia.
      * intros Hno. by destruct (Hno j).
  - destruct (decide (Z.of_nat j >= 0)) as [_ | ?]; [| lia]. cbn [default from_option id].
    pose proof (lookup_lt_Some _ _ _ Hj) as Hjlen.
    rewrite slice_bound_in_range, Nat2Z.id by lia.
    exists j. split; [done |]. split; [lia |].
    intros Hm. rewrite (slice_bound_in_range _ max_len) in Hrange, Hlast by lia.
    rewrite (slice_bound_in_range _ 0) in Hrange, Hlast by lia.
    split.
    + intros j' Hj' Hlt. split; [lia |]. split; [| done].
      destruct (decide (j' ≤ j)%nat) as [? | Hgt]; [done |].
      destruct (Hlast j'); [lia | done | lia].
    + intros Hnot. destruct (Hnot j Hj). lia.
Qed.

(** X15. Whatever [max_len] is, [clip] returns an initial part of [text],
    and one that does not end in white space. *)
Theorem clip_prefix_stripped (text : list Z) (max_len : Z) :
  clip text max_len `prefix_of` text
  ∧ (∀ c, last (clip text max_len) = Some c → isspace c = false)
  ∧ (length (clip text max_len) ≤ length text)%nat.
Proof.
  destruct (clip_cut text max_len) as (cut & -> & _).
  assert (rstrip (take cut text) `prefix_of` text) as Hpre.
  { etrans; [apply rstrip_prefix | apply prefix_take]. }
  split; [exact Hpre |]. split; [apply rstrip_last | by apply prefix_length].
Qed.

(** X16. A text no longer than [max_len] is not cut: it only loses its
    trailing white space, and is returned as it is when it has none. *)
Theorem clip_short (text : list Z) (max_len : Z) :
  Z.of_nat (length text) ≤ max_len →
  clip text max_len = rstrip text
  ∧ ((∀ c, last text = Some c → isspace c = false) → clip text max_len = text).
Proof.
  intros Hshort. destruct (clip_cut text max_len) as (cut & -> & Hcut & _).
  rewrite (Hcut Hshort), firstn_all. split; [done | apply rstrip_id].
Qed.

Lemma clip_short_witness :
  clip (decode "hello world  ") 80
  = rstrip (decode "hello world  ").
Proof.
  apply (proj1 (clip_short (decode "hello world  ") 80
                  ltac:(vm_compute; discriminate))).
Defined.

(** X17. A text longer than [max_len] with a space before position
    [max_len] is cut at the last such space: the result is the text before
    that space, without trailing white space, and is shorter than
    [max_len]. *)
Theorem clip_at_space_before (text : list Z) (max_len : Z) (j : nat) :
  0 ≤ max_len < Z.of_nat (length text) →
  text !! j = Some space → Z.of_nat j < max_len →
  ∃ cut : nat,
    (j ≤ cut)%nat ∧ Z.of_nat cut < max_len ∧ text !! cut = Some space
    ∧ (∀ j', (cut < j')%nat → Z.of_nat j' < max_len → text !! j' ≠ Some space)
    ∧ clip text max_len = rstrip (take cut text)
    ∧ Z.of_nat (length (clip text max_len)) < max_len.
Proof.
  intros Hm Hj Hlt. destruct (clip_cut text max_len) as (cut & Hclip & _ & Hlong).
  destruct (Hlong Hm) as [Hbefore _].
  destruct (Hbefore j Hj Hlt) as (Hcut & Hle & Hspace).
  exists cut. split; [exact Hle |]. split; [lia |]. split; [exact Hspace |].
  split; [| split; [exact Hclip |]].
  - intros j' Hgt Hlt' Hj'. destruct (Hbefore j' Hj' Hlt') as (_ & Hle' & _). lia.
  - rewrite Hclip.
    pose proof (prefix_length _ _ (rstrip_prefix (take cut text))) as Hlen.
    rewrite length_take in Hlen. lia.
Qed.

Lemma clip_at_space_before_witness :
  ∃ cut : nat,
    clip (decode "hello brave new world") 12
    = rstrip (take cut (decode "hello brave new world"))
    ∧ Z.of_nat (length (clip (decode "hello brave new world") 12))
      < 12.
Proof.
  destruct (clip_at_space_before
              (decode "hello brave new world") 12 5
              ltac:(vm_compute; split; [discriminate | reflexivity])
              ltac:(vm_compute; reflexivity) ltac:(lia))
    as (cut & _ & _ & _ & _ & Hclip & Hlen).
  exists cut. split; [exact Hclip | exact Hlen].
Defined.

(** X18. A text longer than [max_len] whose spaces all come at or after
    position [max_len] is cut at its last space, however far that is, so
    the result can be longer than [max_len]; a text without any space is
    not cut at all. *)
Theorem clip_no_space_before (text : list Z) (max_len : Z) :
  0 ≤ max_len < Z.of_nat (length text) →
  (∀ j, text !! j = Some space → ¬ Z.of_nat j < max_len) →
  ((∀ j, text !! j ≠ Some space) → clip text max_len = rstrip text)
  ∧ (∀ j, text !! j = Some space →
       ∃ cut : nat,
         (j ≤ cut)%nat ∧ max_len ≤ Z.of_nat cut ∧ text !! cut = Some space
         ∧ (∀ j', (cut < j')%nat → text !! j' ≠ Some space)
         ∧ clip text max_len = rstrip (take cut text)).
Proof.
  intros Hm Hnot. destruct (clip_cut text max_len) as (cut & Hclip & _ & Hlong).
  destruct (Hlong Hm) as [_ Hafter]. destruct (Hafter Hnot) as [Hlast Hnone].
  split.
  - intros Hno. by rewrite Hclip, (Hnone Hno), firstn_all.
  - intros j Hj. destruct (Hlast j Hj) as [Hle Hspace].
    exists cut. split; [exact Hle |].
    split; [specialize (Hnot cut Hspace); lia |].
    split; [exact Hspace |]. split; [| exact Hclip].
    intros j' Hgt Hj'. destruct (Hlast j' Hj') as [Hle' _]. lia.
Qed.

Lemma clip_no_space_before_witness :
  clip (decode "abcdef") 3
  = rstrip (decode "abcdef").
Proof.
  assert (∀ j, decode "abcdef" !! j ≠ Some space) as Hno.
  { intros j Hj. do 7 (try destruct j as [| j]); vm_compute in Hj; discriminate. }
  apply (proj1 (clip_no_space_before (decode "abcdef") 3
                  ltac:(vm_compute; split; [discriminate | reflexivity])
                  (λ j Hj _, Hno j Hj))).
  exact Hno.
Defined.

(** [clip] on a text with spaces before and after the limit, with a limit
    before the first space, with a negative limit, and with the default;
    and on texts with characters outside ASCII. *)
Example clip_examples :
  let text := decode "hello brave new world  " in
  clip text 12 = decode "hello brave"
  ∧ clip text 3 = decode "hello brave new world"
  ∧ clip text (-3) = decode "hello brave new"
  ∧ clip_default text = decode "hello brave new world"
  ∧ clip (decode "café au lait") 5 = decode "café"
  ∧ clip [97; 98; 160] 80 = [97; 98]
  ∧ clip [97; 160; 32; 98; 99; 100] 4 = [97].
Proof. by vm_compute. Qed.

End clip_facts.

(** ** tag: the class attribute *)

(** X19. When [cls] is given it is the ['class'] attribute: a ['class']
    entry among the keyword attributes has no effect on the result, and the
    call is the same as one that passes [cls] as that entry. *)
Theorem tag_cls_is_class (name : string) (content : list string) (c : string)
    (attrs : gmap string string) :
  tag name content (Some c) attrs = tag name content (Some c) (delete "class" attrs)
  ∧ tag name content (Some c) attrs = tag name content None (<["class" := c]> attrs).
Proof.
  split; [| done]. unfold tag. by rewrite insert_delete_eq.
Qed.

(** ** hyphenate *)

(** X20. [hyphenate] keeps the length of the text, leaves no space in it,
    changes nothing in a text without spaces, and so has no further effect
    when applied again. *)
Theorem hyphenate_spec (s : string) :
  String.length (hyphenate s) = String.length s
  ∧ vector.lacks (Ascii.ascii_of_nat 32) (hyphenate s)
  ∧ (vector.lacks (Ascii.ascii_of_nat 32) s → hyphenate s = s)
  ∧ hyphenate (hyphenate s) = hyphenate s.
Proof.
  unfold hyphenate. induction s as [| a s (IHlen & IHlacks & IHid & IHidem)]; [done |].
  cbn [replace_char String.length vector.lacks].
  split; [by rewrite IHlen |]. split; [| split].
  - split; [| exact IHlacks]. case_decide; [discriminate | done].
  - intros [Ha Hs]. rewrite decide_False by done. by rewrite IHid.
  - rewrite IHidem. f_equal.
    destruct (decide (a = Ascii.ascii_of_nat 32)) as [-> | Ha];
      case_decide; done.
Qed.

Example hyphenate_test : hyphenate "The time has come" = "The-time-has-come".
Proof. by vm_compute. Qed.

(** ** Vector: magnitude *)

Section vector_abs.
Import vector.

(** At integers [x] and [y]: [abs] agrees with the formula evaluated in
    binary64, and is the integer norm when there is one. *)
Local Abbreviation checked_at x y :=
  (match float_of_int x, float_of_int y, __abs__ (new x y) with
   | inr a, inr b, inr r =>
       PrimFloat.Leibniz.eqb r (PrimFloat.sqrt (a * a + b * b))
       && (let s := x * x + y * y in
           if Z.sqrt s * Z.sqrt s =? s then
             match float_of_int (Z.sqrt s) with
             | inr f => PrimFloat.Leibniz.eqb r f
             | inl _ => false
             end
           else true)
   | _, _, _ => false
   end).

Lemma abs_checked_box :
  Forall (λ x, Forall (λ y, checked_at x y = true) (seqZ (-50) 101))
    (seqZ (-50) 101).
Proof. apply (bool_decide_unpack _). vm_compute. exact I. Qed.

Lemma abs_checked (x y : Z) :
  -50 ≤ x ≤ 50 → -50 ≤ y ≤ 50 → checked_at x y = true.
Proof.
  intros Hx Hy. pose proof abs_checked_box as Hbox.
  rewrite Forall_forall in Hbox. specialize (Hbox x).
  rewrite Forall_forall in Hbox.
  apply Hbox; apply elem_of_seqZ; lia.
Qed.

Lemma abs_formula_small (x y : Z) (a b : float) :
  -50 ≤ x ≤ 50 → -50 ≤ y ≤ 50 →
  float_of_int x = inr a → float_of_int y = inr b →
  __abs__ (new x y) = inr (PrimFloat.sqrt (a * a + b * b)).
Proof.
  intros Hx Hy Ha Hb. pose proof (abs_checked x y Hx Hy) as Hc.
  rewrite Ha, Hb in Hc.
  destruct (__abs__ (new x y)) as [e | r]; [discriminate |].
  apply andb_true_iff in Hc as [Hc _].
  apply FloatAxioms.Leibniz.eqb_spec in Hc. by rewrite Hc.
Qed.

Lemma abs_exact_small (x y n : Z) :
  -50 ≤ x ≤ 50 → -50 ≤ y ≤ 50 → 0 ≤ n → x * x + y * y = n * n →
  __abs__ (new x y) = float_of_int n.
Proof.
  intros Hx Hy Hn Hsq. pose proof (abs_checked x y Hx Hy) as Hc.
  destruct (float_of_int x) as [? | a]; [discriminate |].
  destruct (float_of_int y) as [? | b]; [discriminate |].
  destruct (__abs__ (new x y)) as [e | r]; [discriminate |].
  apply andb_true_iff in Hc as [_ Hc]. cbv zeta in Hc.
  rewrite Hsq, Z.sqrt_square, Z.eqb_refl in Hc by done.
  destruct (float_of_int n) as [e | f]; [discriminate |].
  apply FloatAxioms.Leibniz.eqb_spec in Hc. by rewrite Hc.
Qed.

End vector_abs.

(** C8, amended. [abs(Vector(x, y))] is [math.hypot] of the components
    converted to [float], the Euclidean norm in binary64.  For components
    up to 50 in size it is [sqrt(x*x + y*y)] as floating-point arithmetic
    evaluates it, and exactly the norm where that is an integer; in
    particular [abs(Vector(3, 4))] is 5.0 and [abs(Vector(3, 4) * 3)] is
    15.0. *)
Theorem Vector_abs_hypot :
  (∀ x y a b,
     vector.float_of_int x = inr a → vector.float_of_int y = inr b →
     vector.__abs__ (vector.new x y) = inr (vector.hypot a b))
  ∧ (∀ x y a b,
       -50 ≤ x ≤ 50 → -50 ≤ y ≤ 50 →
       vector.float_of_int x = inr a → vector.float_of_int y = inr b →
       vector.__abs__ (vector.new x y) = inr (PrimFloat.sqrt (a * a + b * b)))
  ∧ (∀ x y n,
       -50 ≤ x ≤ 50 → -50 ≤ y ≤ 50 → 0 ≤ n → x * x + y * y = n * n →
       vector.__abs__ (vector.new x y) = vector.float_of_int n)
  ∧ vector.__abs__ (vector.new 3 4) = inr 5%float
  ∧ vector.__abs__ (vector.__mul__ (vector.new 3 4) 3) = inr 15%float.
Proof.
  split; [| split; [apply abs_formula_small |
            split; [apply abs_exact_small | split; vm_compute; reflexivity]]].
  intros x y a b Hx Hy. unfold vector.__abs__. simpl. by rewrite Hx, Hy.
Qed.

Lemma Vector_abs_hypot_witness :
  vector.__abs__ (vector.new 20 (-21)) = vector.float_of_int 29.
Proof.
  apply (proj1 (proj2 (proj2 Vector_abs_hypot)) 20 (-21) 29); lia.
Defined.

(** With a component too large for a [float], [abs] returns no norm: it
    raises [OverflowError]. *)
Lemma Vector_abs_overflow :
  vector.__abs__ (vector.new (10 ^ 400) 0)
  = inl (vector.OverflowError "int too large to convert to float")
  ∧ ¬ ∃ r, vector.__abs__ (vector.new (10 ^ 400) 0) = inr r.
Proof.
  assert (vector.__abs__ (vector.new (10 ^ 400) 0)
          = inl (vector.OverflowError "int too large to convert to float")) as H
    by (vm_compute; reflexivity).
  split; [exact H |]. intros [r Hr]. rewrite H in Hr. discriminate.
Qed.
